(** * rescue.cpp: signature scanner for lost JPEG and ASCII files

    A shallow embedding of [rescue.cpp] and the properties of its scanning
    engine.

    Conventions.
    - A [uint8_t] is a [Z]; a [uint64_t] is a [Z] reduced by [to_uint64]
      wherever the C++ arithmetic is carried out in that type.
    - A pointer into the mapping is the byte offset from [g_start]; the
      pointer [end] (one past the last byte) is the offset [file_end].
      A pointer that may be [NULL] is an [option Z] whose [None] is [NULL].
    - [std::cerr] is a list of diagnostic events, [std::cout] a list of
      lines, the current directory a list of (name, content) in creation
      order.
    - The program can die in two places: inside [write_fragment] (a [NULL]
      stream handed to [fwrite]) and in the loop of [ascii_rescue] (a load
      one byte past the mapping, where nothing may be mapped).  An
      [outcome] is a world still [Running], the world in which the process
      [Crashed] in the sink, or the world in which it [Faulted] on a
      load. *)

From Stdlib Require Import ZArith List String Ascii Bool Lia DecimalString.
From Stdlib Require Import Sorted.
Import ListNotations.

Open Scope Z_scope.

Module Rescue.

(** ** Memory *)

(** The mapped file together with the address space around it:
    [readable p] tells whether an offset outside the mapping can be loaded
    at all (a load where nothing is mapped kills the process), and
    [beyond p] is the byte such a load observes when it can. *)
Record Memory : Type := {
  file_bytes : list Z;
  beyond : Z -> Z;
  readable : Z -> bool
}.

Definition file_end (m : Memory) : Z := Z.of_nat (List.length (file_bytes m)).

(** The result of dereferencing a [const uint8_t *]. *)
Inductive access : Type :=
| InBounds (b : Z)
| OutOfBounds (b : Z).

Definition value (a : access) : Z :=
  match a with
  | InBounds b => b
  | OutOfBounds b => b
  end.

Definition in_bounds (a : access) : bool :=
  match a with
  | InBounds _ => true
  | OutOfBounds _ => false
  end.

(** [*p], for a load that succeeds. *)
Definition deref (m : Memory) (p : Z) : access :=
  if (0 <=? p) && (p <? file_end m)
  then InBounds (nth (Z.to_nat p) (file_bytes m) 0)
  else OutOfBounds (beyond m p).

(** Whether the load [*p] succeeds: within the mapping always, outside it
    where the address is readable. *)
Definition load_succeeds (m : Memory) (p : Z) : bool :=
  in_bounds (deref m p) || readable m p.

Definition to_uint64 (z : Z) : Z := z mod 2 ^ 64.

(** Element [i] of a pattern or mask array. *)
Definition at_index (a : list Z) (i : Z) : Z := nth (Z.to_nat i) a 0.

(** ** check_if_bytes_match *)

Section Matcher.

Variable m : Memory.

(** The [while] loop of [check_if_bytes_match]; the result is the final
    value of [i]. *)
Fixpoint match_loop (fuel : nat) (mem endp pattern_size : Z)
    (pattern mask : list Z) (i : Z) : Z :=
  match fuel with
  | O => i
  | S fuel' =>
      if (i <? pattern_size)
         && negb (mem + i =? endp)
         && (Z.land (value (deref m (mem + i))) (at_index mask i)
               =? at_index pattern i)
      then match_loop fuel' mem endp pattern_size pattern mask (i + 1)
      else i
  end.

Definition check_if_bytes_match (mem endp pattern_size : Z)
    (pattern mask : list Z) : bool :=
  match_loop (Z.to_nat pattern_size) mem endp pattern_size pattern mask 0
    =? pattern_size.

(** ** jpeg_is_header *)

Definition jpeg_pattern_size : Z := 12.

Definition jfif_pattern : list Z :=
  [0xFF; 0xD8; 0xFF; 0xE0;
   0;    0;    0x4A; 0x46;
   0x49; 0x46; 0x00; 0x01].

Definition exif_pattern : list Z :=
  [0xFF; 0xD8; 0xFF; 0xE1;
   0;    0;    0x45; 0x78;
   0x69; 0x66; 0x00; 0x00].

Definition jpeg_mask : list Z :=
  [0xFF; 0xFF; 0xFF; 0xFF;
   0;    0;    0xFF; 0xFF;
   0xFF; 0xFF; 0xFF; 0xFF].

Definition jpeg_is_header (mem endp : Z) : bool :=
  check_if_bytes_match mem endp jpeg_pattern_size jfif_pattern jpeg_mask
  || check_if_bytes_match mem endp jpeg_pattern_size exif_pattern jpeg_mask.

(** ** jpeg_find_footer *)

Definition max_length_bytes : Z := 40 * 1024 * 1024.

(** The [while (mem <= max_mem)] loop.  [None] is the [NULL] returned after
    the loop. *)
Fixpoint footer_loop (fuel : nat) (mem max_mem endp : Z) : option Z :=
  match fuel with
  | O => None
  | S fuel' =>
      if mem <=? max_mem then
        if (value (deref m mem) =? 0xFF)
           && (value (deref m (mem + 1)) =? 0xD9)
        then
          if (mem + 3 >=? endp)
             || negb (value (deref m (mem + 2)) =? 0xFF)
             || negb (value (deref m (mem + 3)) =? 0xE1)
          then Some (mem + 2)
          else footer_loop fuel' (mem + 1) max_mem endp
        else footer_loop fuel' (mem + 1) max_mem endp
      else None
  end.

Definition footer_bound (mem endp : Z) : Z :=
  let max_mem := endp - 2 in
  if max_mem >? mem + max_length_bytes
  then mem + max_length_bytes
  else max_mem.

Definition jpeg_find_footer (mem endp : Z) : option Z :=
  let max_mem := footer_bound mem endp in
  footer_loop (Z.to_nat (max_mem - mem + 1)) mem max_mem endp.

(** ** The scan loop of ascii_rescue *)

(** The [while] loop of [ascii_rescue], as long as its loads succeed.  The
    result is the final [cur] and the offsets at which [*cur] was
    evaluated, oldest first: one entry for each evaluation of the loop
    condition, which reads the byte there once or twice. *)
Fixpoint ascii_loop (fuel : nat) (cur endp : Z) (loads : list Z)
    : Z * list Z :=
  match fuel with
  | O => (cur, loads)
  | S fuel' =>
      let b := value (deref m cur) in
      if (b >=? 0x20) && (b <=? 0x7E) && (cur <? endp)
      then ascii_loop fuel' (cur + 1) endp (loads ++ [cur])
      else (cur, loads ++ [cur])
  end.

Definition ascii_scan (cur endp : Z) : Z * list Z :=
  ascii_loop (S (Z.to_nat (endp - cur))) cur endp [].

End Matcher.

(** ** The process state *)

(** The arguments of one call of [write_fragment]. *)
Record Fragment : Type := {
  frag_start : Z;
  frag_end : Z;
  frag_ext : string
}.

(** What the program writes to [std::cerr]. *)
Inductive diagnostic : Type :=
| Opened (megabytes : Z)        (* Successfully opened file. Size: .. MB *)
| Progress (tenths : Z)         (* the percentage, in tenths of a percent *)
| JpegHeaderFound (byte : Z)    (* JPEG: found header at byte .. *)
| JpegFooterNotFound            (* JPEG: footer not found! *)
| JpegFooterFound               (* JPEG: footer found *)
| AsciiFound (bytes : Z)        (* ASCII: .. bytes of text found *)
| Wrote (filename : string) (bytes : Z)  (* Wrote .. (.. bytes) *)
| Complete.                     (* Complete. *)

(** The globals [g_fragment_id] and [g_ascii_ignore_before], the two output
    streams and the files created so far.  [sunk] is the history of the
    calls of [write_fragment]: their arguments, oldest first. *)
Record World : Type := {
  g_fragment_id : Z;
  g_ascii_ignore_before : option Z;
  cout : list string;
  cerr : list diagnostic;
  disk : list (string * list Z);
  sunk : list Fragment
}.

Definition initial_world : World :=
  {| g_fragment_id := 0;
     g_ascii_ignore_before := None;
     cout := [];
     cerr := [];
     disk := [];
     sunk := [] |}.

(** What has become of the process: it is running in the world [w], it
    died in the sink leaving [w] behind (a [NULL] stream given to [fwrite]),
    or it died on a load leaving [w] behind (an address where nothing is
    mapped). *)
Inductive outcome : Type :=
| Running (w : World)
| Crashed (w : World)
| Faulted (w : World).

Definition world_of (o : outcome) : World :=
  match o with
  | Running w => w
  | Crashed w => w
  | Faulted w => w
  end.

Definition and_then (o : outcome) (k : World -> outcome) : outcome :=
  match o with
  | Running w => k w
  | Crashed w => Crashed w
  | Faulted w => Faulted w
  end.

(** [std::cerr << ...] *)
Definition say (d : diagnostic) (w : World) : World :=
  {| g_fragment_id := g_fragment_id w;
     g_ascii_ignore_before := g_ascii_ignore_before w;
     cout := cout w;
     cerr := cerr w ++ [d];
     disk := disk w;
     sunk := sunk w |}.

Definition set_ascii_ignore_before (p : Z) (w : World) : World :=
  {| g_fragment_id := g_fragment_id w;
     g_ascii_ignore_before := Some p;
     cout := cout w;
     cerr := cerr w;
     disk := disk w;
     sunk := sunk w |}.

(** [p < q] for a pointer [q] that may be [NULL]: no pointer into the
    mapping is below [NULL]. *)
Definition ptr_ltb (p : Z) (q : option Z) : bool :=
  match q with
  | None => false
  | Some q' => p <? q'
  end.

(** [%llu] *)
Definition decimal (n : Z) : string :=
  NilEmpty.string_of_uint (N.to_uint (Z.to_N n)).

(** [snprintf(filename, 256, "%s-fragment-%llu.%s", ...)]: at most 255
    characters are kept. *)
Definition fragment_filename (extension : string) (id : Z) : string :=
  substring 0 255
    (extension ++ "-fragment-" ++ decimal id ++ "." ++ extension)%string.

Section Scanner.

Variable m : Memory.

(** The file system: [fopen_ok name] tells whether [fopen(name, "w")]
    returns a stream. *)
Variable fopen_ok : string -> bool.

(** The bytes [fwrite(start, 1, end - start, f)] reads from memory. *)
Definition bytes_between (start endp : Z) : list Z :=
  map (fun k => value (deref m (start + Z.of_nat k)))
      (seq 0 (Z.to_nat (endp - start))).

(** ** write_fragment *)

(** When [fopen] returns [NULL] the stream is handed to [fwrite] and
    [fclose] all the same: the process dies there. *)
Definition write_fragment (start endp : Z) (extension : string)
    (w : World) : outcome :=
  let id := to_uint64 (g_fragment_id w + 1) in
  let filename := fragment_filename extension id in
  let called :=
    sunk w ++ [{| frag_start := start; frag_end := endp;
                  frag_ext := extension |}] in
  if fopen_ok filename then
    Running
      {| g_fragment_id := id;
         g_ascii_ignore_before := g_ascii_ignore_before w;
         cout := cout w ++ [("gzip " ++ filename)%string];
         cerr := cerr w ++ [Wrote filename (endp - start)];
         disk := disk w ++ [(filename, bytes_between start endp)];
         sunk := called |}
  else
    Crashed
      {| g_fragment_id := id;
         g_ascii_ignore_before := g_ascii_ignore_before w;
         cout := cout w;
         cerr := cerr w;
         disk := disk w;
         sunk := called |}.

(** ** jpeg_rescue *)

Definition jpeg_rescue (cur endp : Z) (w : World) : outcome :=
  if jpeg_is_header m cur endp then
    let w1 := say (JpegHeaderFound (to_uint64 cur)) w in
    match jpeg_find_footer m cur endp with
    | None => Running (say JpegFooterNotFound w1)
    | Some jpeg_end =>
        write_fragment cur jpeg_end "jpg" (say JpegFooterFound w1)
    end
  else Running w.

(** ** ascii_rescue *)

Definition min_size_bytes : Z := 1024.

(** The loop changes nothing but its own cursor: a process that dies on
    one of the loads of the loop dies in the world the detector was called
    in. *)
Definition ascii_rescue (cur endp : Z) (w : World) : outcome :=
  let ascii_start := cur in
  if ptr_ltb cur (g_ascii_ignore_before w) then Running w
  else if forallb (load_succeeds m) (snd (ascii_scan m cur endp)) then
    let cur := fst (ascii_scan m cur endp) in
    and_then
      (if to_uint64 (cur - ascii_start) >=? min_size_bytes then
         write_fragment ascii_start cur "txt"
           (say (AsciiFound (to_uint64 (cur - ascii_start))) w)
       else Running w)
      (fun w' => Running (set_ascii_ignore_before cur w'))
  else Faulted w.

(** ** main *)

(** The progress report at the head of the loop body: the new value of
    [percent_complete] and the world after the report. *)
Definition report_progress (cur st_size percent_complete : Z) (w : World)
    : Z * World :=
  let new_percent := to_uint64 (cur * 1000) / to_uint64 st_size in
  if new_percent >? percent_complete
  then (new_percent, say (Progress new_percent) w)
  else (percent_complete, w).

(** The [while (cur != end)] loop of [main].  [None]: the fuel ran out
    before the loop was left. *)
Fixpoint scan_loop (fuel : nat) (cur endp st_size percent_complete : Z)
    (w : World) : option outcome :=
  match fuel with
  | O => None
  | S fuel' =>
      if negb (cur =? endp) then
        let (percent_complete', w1) :=
          report_progress cur st_size percent_complete w in
        match jpeg_rescue cur endp w1 with
        | Crashed w' => Some (Crashed w')
        | Faulted w' => Some (Faulted w')
        | Running w2 =>
            match ascii_rescue cur endp w2 with
            | Crashed w' => Some (Crashed w')
            | Faulted w' => Some (Faulted w')
            | Running w3 =>
                scan_loop fuel' (cur + 1) endp st_size percent_complete' w3
            end
        end
      else Some (Running w)
  end.

(** [main] from the point where the file is mapped ([mmap] refuses a file
    of no bytes: a scan starts on a buffer of at least one byte). *)
Definition main : option outcome :=
  let st_size := file_end m in
  let w := say (Opened (st_size / (1024 * 1024))) initial_world in
  match scan_loop (S (Z.to_nat st_size)) 0 st_size st_size 0 w with
  | Some (Running w') => Some (Running (say Complete w'))
  | other => other
  end.

End Scanner.

(** ** Reference definitions used in the statements *)

(** The byte at offset [p]. *)
Definition byte_at (m : Memory) (p : Z) : Z := value (deref m p).

Definition printable (b : Z) : Prop := 0x20 <= b <= 0x7E.

Definition printable_b (b : Z) : bool := (0x20 <=? b) && (b <=? 0x7E).

(** [FF D9] starts at offset [p]. *)
Definition eoi_at (m : Memory) (p : Z) : Prop :=
  byte_at m p = 0xFF /\ byte_at m (p + 1) = 0xD9.

(** The two bytes after the marker at [p] lie in the buffer and are
    [FF E1]. *)
Definition continued_at (m : Memory) (p : Z) : Prop :=
  p + 3 < file_end m /\ byte_at m (p + 2) = 0xFF /\ byte_at m (p + 3) = 0xE1.

(** [FF D9] at [p], not immediately followed by [FF E1]. *)
Definition terminator_at (m : Memory) (p : Z) : Prop :=
  eoi_at m p /\ ~ continued_at m p.

(** The masked comparison of the specification's data model:
    [(data & mask) == (pattern & mask)] at every byte of a pattern that
    fits before the end of the buffer. *)
Definition masked_comparison (m : Memory) (position pattern_size : Z)
    (pattern mask : list Z) : Prop :=
  position + pattern_size <= file_end m /\
  forall i, 0 <= i < pattern_size ->
    Z.land (byte_at m (position + i)) (at_index mask i)
    = Z.land (at_index pattern i) (at_index mask i).

(** The comparison [check_if_bytes_match] documents:
    [(mem[i] & mask[i]) == pattern[i]]. *)
Definition documented_comparison (m : Memory) (position pattern_size : Z)
    (pattern mask : list Z) : Prop :=
  position + pattern_size <= file_end m /\
  forall i, 0 <= i < pattern_size ->
    Z.land (byte_at m (position + i)) (at_index mask i) = at_index pattern i.

(** [a <= b] on pointers that may be [NULL]. *)
Definition ptr_le (a b : option Z) : Prop :=
  match a, b with
  | None, _ => True
  | Some _, None => False
  | Some x, Some y => x <= y
  end.

(** The offsets [lo], [lo + 1], ... ([n] of them). *)
Definition offsets (lo : Z) (n : nat) : list Z :=
  map (fun k => lo + Z.of_nat k) (seq 0 n).

(** One detector call at some position. *)
Inductive invocation : Type :=
| Jpeg (cur : Z)
| Ascii (cur : Z).

Section Reference.

Variable m : Memory.
Variable fopen_ok : string -> bool.

Definition invoke (endp : Z) (c : invocation) (w : World) : outcome :=
  match c with
  | Jpeg cur => jpeg_rescue m fopen_ok cur endp w
  | Ascii cur => ascii_rescue m fopen_ok cur endp w
  end.

(** The value of [g_ascii_ignore_before] after each call of a sequence of
    detector calls, up to the call the process dies in. *)
Fixpoint boundary_history (endp : Z) (calls : list invocation) (w : World)
    : list (option Z) :=
  match calls with
  | [] => []
  | c :: calls' =>
      match invoke endp c w with
      | Running w' =>
          g_ascii_ignore_before w' :: boundary_history endp calls' w'
      | Crashed w' => [g_ascii_ignore_before w']
      | Faulted w' => [g_ascii_ignore_before w']
      end
  end.

(** The progress report, the JPEG detector and then the ASCII detector at
    each offset of a list, in the order of the list. *)
Fixpoint visit_offsets (endp st_size : Z) (positions : list Z)
    (percent_complete : Z) (w : World) : outcome :=
  match positions with
  | [] => Running w
  | cur :: positions' =>
      let (percent_complete', w1) :=
        report_progress cur st_size percent_complete w in
      and_then (jpeg_rescue m fopen_ok cur endp w1) (fun w2 =>
      and_then (ascii_rescue m fopen_ok cur endp w2) (fun w3 =>
      visit_offsets endp st_size positions' percent_complete' w3))
  end.

End Reference.

(** The completion notice of a process that is still running. *)
Definition complete (o : outcome) : outcome :=
  match o with
  | Running w => Running (say Complete w)
  | Crashed w => Crashed w
  | Faulted w => Faulted w
  end.

(** A fragment lies within the buffer: [start < end <= length]. *)
Definition within_buffer (m : Memory) (f : Fragment) : Prop :=
  frag_start f < frag_end f <= file_end m.

(** Every byte of the mapped file is a [uint8_t]. *)
Definition well_formed (m : Memory) : Prop :=
  Forall (fun b => 0 <= b < 256) (file_bytes m).

(** [[s, e)] is a run of printable bytes of the buffer that cannot be
    extended on either side. *)
Definition maximal_run (m : Memory) (s e : Z) : Prop :=
  0 <= s <= e /\ e <= file_end m
  /\ (forall p, s <= p < e -> printable (byte_at m p))
  /\ (0 < s -> ~ printable (byte_at m (s - 1)))
  /\ (e < file_end m -> ~ printable (byte_at m e)).

(** The bytes of the file at the offsets [[s, e)]. *)
Definition slice (bytes : list Z) (s e : Z) : list Z :=
  firstn (Z.to_nat (e - s)) (skipn (Z.to_nat s) bytes).

(** The files a sequence of fragments is written to when the first of them
    gets the identifier [next_id]. *)
Fixpoint artifacts (m : Memory) (next_id : Z) (frags : list Fragment)
    : list (string * list Z) :=
  match frags with
  | [] => []
  | f :: frags' =>
      (fragment_filename (frag_ext f) (to_uint64 next_id),
       slice (file_bytes m) (frag_start f) (frag_end f))
      :: artifacts m (next_id + 1) frags'
  end.

(** The percentages reported on [std::cerr], oldest first. *)
Definition progress_values (ds : list diagnostic) : list Z :=
  flat_map (fun d => match d with Progress t => [t] | _ => [] end) ds.

(** The fragments with a given tag. *)
Definition tagged (ext : string) (frags : list Fragment) : list Fragment :=
  filter (fun f => String.eqb (frag_ext f) ext) frags.

(** The fragment the JPEG detector hands to the sink at [cur], if any. *)
Definition jpeg_fragment_at (m : Memory) (cur : Z) : list Fragment :=
  if jpeg_is_header m cur (file_end m) then
    match jpeg_find_footer m cur (file_end m) with
    | Some jpeg_end =>
        [{| frag_start := cur; frag_end := jpeg_end; frag_ext := "jpg" |}]
    | None => []
    end
  else [].

(** What the loop of [main] knows of [g_ascii_ignore_before] when the
    cursor is at [cur]: it is [NULL] before the first iteration only; later
    it is at most one byte behind the cursor, is the end of a run, and the
    bytes from the one before the cursor up to it are printable. *)
Definition boundary_at (m : Memory) (cur : Z) (boundary : option Z) : Prop :=
  match boundary with
  | None => cur = 0
  | Some b =>
      1 <= cur /\ cur - 1 <= b <= file_end m
      /\ (b < file_end m -> ~ printable (byte_at m b))
      /\ (forall p, cur - 1 <= p < b -> printable (byte_at m p))
  end.

(** Every "txt" fragment is a maximal run of at least 1024 bytes. *)
Definition txt_runs (m : Memory) (frags : list Fragment) : Prop :=
  forall f, In f frags -> frag_ext f = "txt"%string ->
    maximal_run m (frag_start f) (frag_end f)
    /\ 1024 <= frag_end f - frag_start f.

(** Every "txt" fragment ends at or before the boundary. *)
Definition txt_behind (boundary : option Z) (frags : list Fragment) : Prop :=
  forall f, In f frags -> frag_ext f = "txt"%string ->
    exists b, boundary = Some b /\ frag_end f <= b.

(** Of two "txt" fragments the first ends before the second starts. *)
Definition txt_apart (f g : Fragment) : Prop :=
  frag_ext f = "txt"%string -> frag_ext g = "txt"%string ->
  frag_end f < frag_start g.

(** Every maximal run of at least 1024 bytes that starts before [cur] is
    among the fragments. *)
Definition txt_found (m : Memory) (cur : Z) (frags : list Fragment) : Prop :=
  forall s e, maximal_run m s e -> 1024 <= e - s -> s < cur ->
    In {| frag_start := s; frag_end := e; frag_ext := "txt" |} frags.

Definition txt_invariant (m : Memory) (cur : Z) (boundary : option Z)
    (frags : list Fragment) : Prop :=
  boundary_at m cur boundary
  /\ txt_runs m frags
  /\ txt_behind boundary frags
  /\ ForallOrdPairs txt_apart frags
  /\ (file_end m < 2 ^ 64 -> txt_found m cur frags).

(** The identifier counts the calls of the sink, the files are those of
    the fragments handed to it, and each has its [gzip] line. *)
Definition books_kept (m : Memory) (w : World) : Prop :=
  g_fragment_id w = to_uint64 (Z.of_nat (List.length (sunk w)))
  /\ disk w = artifacts m 1 (sunk w)
  /\ cout w = map (fun file => ("gzip " ++ fst file)%string) (disk w).

(** The same in a process that died on its last fragment. *)
Definition books_at_death (m : Memory) (w : World) : Prop :=
  exists frags f,
    sunk w = frags ++ [f]
    /\ g_fragment_id w = to_uint64 (Z.of_nat (List.length (sunk w)))
    /\ disk w = artifacts m 1 frags
    /\ cout w = map (fun file => ("gzip " ++ fst file)%string) (disk w).

(** The progress reports so far increase strictly and lie between 1 and the
    last percentage kept, which is at most [bound]. *)
Definition progress_kept (bound pc : Z) (w : World) : Prop :=
  0 <= pc <= bound
  /\ ForallOrdPairs Z.lt (progress_values (cerr w))
  /\ Forall (fun v => 1 <= v <= pc) (progress_values (cerr w)).

(** A memory whose surroundings can be loaded and read as zero. *)
Definition mapping (bytes : list Z) : Memory :=
  {| file_bytes := bytes; beyond := fun _ => 0; readable := fun _ => true |}.

(** A memory with nothing mapped around the file. *)
Definition isolated (bytes : list Z) : Memory :=
  {| file_bytes := bytes; beyond := fun _ => 0; readable := fun _ => false |}.

End Rescue.
Import Rescue.

(** Case analysis on an offset [p] known to lie among the [n] offsets from
    [lo] on; [k] closes the goal at each concrete offset. *)
Ltac by_offset p lo n k :=
  lazymatch n with
  | O => exfalso; lia
  | S ?n' =>
      let Hne := fresh "Hne" in
      destruct (Z.eq_dec p lo) as [->|Hne];
      [k | by_offset p (lo + 1) n' k]
  end.

(** * Properties *)

(** ** The pattern matcher *)

Section MatcherFacts.

Variable m : Memory.

(** The loop counter only grows, and never beyond the pattern size. *)
Lemma match_loop_range fuel mem endp ps pattern mask i :
  i <= ps ->
  i <= match_loop m fuel mem endp ps pattern mask i <= ps.
Proof.
  revert i; induction fuel as [|fuel IH]; intros i Hi; simpl; [lia|].
  destruct (_ && _ && _) eqn:E; [|lia].
  apply andb_prop in E as [E _]. apply andb_prop in E as [E _].
  apply Z.ltb_lt in E.
  specialize (IH (i + 1) ltac:(lia)). lia.
Qed.

(** With fuel for the bytes that remain, the loop reaches the pattern size
    exactly when every remaining byte lies before [endp] and matches. *)
Lemma match_loop_complete fuel mem endp ps pattern mask i :
  0 <= i <= ps ->
  (Z.to_nat (ps - i) <= fuel)%nat ->
  match_loop m fuel mem endp ps pattern mask i = ps <->
  (forall j, i <= j < ps ->
     mem + j <> endp /\
     Z.land (byte_at m (mem + j)) (at_index mask j) = at_index pattern j).
Proof.
  revert i; induction fuel as [|fuel IH]; intros i Hi Hfuel.
  - simpl. split; [intros -> j Hj; lia | intros _; lia].
  - simpl. destruct (_ && _ && _) eqn:E.
    + apply andb_prop in E as [E E3]. apply andb_prop in E as [E1 E2].
      apply Z.ltb_lt in E1. apply negb_true_iff, Z.eqb_neq in E2.
      apply Z.eqb_eq in E3.
      rewrite IH by lia. split.
      * intros Hall j Hj. destruct (Z.eq_dec j i) as [->|Hne].
        -- split; assumption.
        -- apply Hall; lia.
      * intros Hall j Hj. apply Hall; lia.
    + split.
      * intros ->. intros j Hj; lia.
      * intros Hall. destruct (Z.eq_dec i ps) as [Heq|Hne]; [assumption|].
        exfalso. destruct (Hall i ltac:(lia)) as [H1 H2].
        apply andb_false_iff in E as [E|E].
        -- apply andb_false_iff in E as [E|E].
           ++ apply Z.ltb_ge in E. lia.
           ++ apply negb_false_iff, Z.eqb_eq in E. contradiction.
        -- apply Z.eqb_neq in E. contradiction.
Qed.

Lemma check_if_bytes_match_true mem endp ps pattern mask :
  check_if_bytes_match m mem endp ps pattern mask = true <->
  0 <= ps /\
  (forall j, 0 <= j < ps ->
     mem + j <> endp /\
     Z.land (byte_at m (mem + j)) (at_index mask j) = at_index pattern j).
Proof.
  unfold check_if_bytes_match. rewrite Z.eqb_eq.
  destruct (Z_lt_le_dec ps 0) as [Hneg|Hpos].
  - replace (Z.to_nat ps) with O by lia. simpl. split; [lia | intros [? _]; lia].
  - rewrite match_loop_complete by lia.
    split; [intros Hall; split; [lia | exact Hall] | intros [_ Hall]; exact Hall].
Qed.

(** For a position at or before [endp], no byte of the pattern sits at
    [endp] exactly when the whole pattern fits before it. *)
Lemma fits_before_end mem endp ps :
  mem <= endp ->
  (forall j, 0 <= j < ps -> mem + j <> endp) <-> mem + ps <= endp.
Proof.
  intros Hle. split.
  - intros Hall. destruct (Z_le_gt_dec (mem + ps) endp) as [?|Hgt]; [assumption|].
    exfalso. apply (Hall (endp - mem)); lia.
  - intros Hfit j Hj. lia.
Qed.

Lemma check_if_bytes_match_documented_iff position ps pattern mask :
  0 <= ps ->
  position <= file_end m ->
  check_if_bytes_match m position (file_end m) ps pattern mask = true <->
  documented_comparison m position ps pattern mask.
Proof.
  intros Hps Hpos. rewrite check_if_bytes_match_true.
  unfold documented_comparison.
  rewrite <- (fits_before_end position (file_end m) ps Hpos).
  split.
  - intros [_ Hall]. split; intros j Hj; apply Hall; assumption.
  - intros [H1 H2]. split; [assumption|]. intros j Hj. split; auto.
Qed.

Lemma check_if_bytes_match_masked_iff position ps pattern mask :
  0 <= ps ->
  position <= file_end m ->
  (forall i, 0 <= i < ps ->
     Z.land (at_index pattern i) (at_index mask i) = at_index pattern i) ->
  check_if_bytes_match m position (file_end m) ps pattern mask = true <->
  masked_comparison m position ps pattern mask.
Proof.
  intros Hps Hpos Hclean.
  rewrite check_if_bytes_match_documented_iff by assumption.
  unfold documented_comparison, masked_comparison.
  split; intros [Hfit Hall]; (split; [exact Hfit|]); intros i Hi.
  - rewrite (Hclean i Hi). apply Hall; exact Hi.
  - rewrite <- (Hclean i Hi). apply Hall; exact Hi.
Qed.

End MatcherFacts.

(** Both JPEG signatures have no bits outside the mask. *)
Lemma jpeg_patterns_clean i :
  0 <= i < jpeg_pattern_size ->
  Z.land (at_index jfif_pattern i) (at_index jpeg_mask i)
    = at_index jfif_pattern i
  /\ Z.land (at_index exif_pattern i) (at_index jpeg_mask i)
    = at_index exif_pattern i.
Proof.
  unfold jpeg_pattern_size. intros Hi.
  assert (Hcases : i = 0 \/ i = 1 \/ i = 2 \/ i = 3 \/ i = 4 \/ i = 5 \/
                   i = 6 \/ i = 7 \/ i = 8 \/ i = 9 \/ i = 10 \/ i = 11)
    by lia.
  repeat (destruct Hcases as [->|Hcases]; [split; reflexivity|]).
  subst i. split; reflexivity.
Qed.

(** [C6] (as amended) The pattern matcher returns true if and only if the
    full pattern length fits before the buffer end and every byte [i]
    satisfies [(data[position+i] & mask[i]) == pattern[i]].  For a pattern
    with no bits outside its mask ([pattern[i] & mask[i] == pattern[i]], as
    in the two JPEG signatures, whose wildcarded bytes are zero) this is the
    masked comparison [(data & mask) == (pattern & mask)].  A pattern that
    would run past the buffer end never matches, and neither does a pattern
    with a nonzero byte at a position whose mask is zero. *)
Theorem check_if_bytes_match_spec m position pattern_size pattern mask :
  0 <= pattern_size ->
  position <= file_end m ->
  (check_if_bytes_match m position (file_end m) pattern_size pattern mask
     = true
   <-> documented_comparison m position pattern_size pattern mask)
  /\ ((forall i, 0 <= i < pattern_size ->
         Z.land (at_index pattern i) (at_index mask i) = at_index pattern i) ->
      (check_if_bytes_match m position (file_end m) pattern_size pattern mask
         = true
       <-> masked_comparison m position pattern_size pattern mask))
  /\ (file_end m < position + pattern_size ->
      check_if_bytes_match m position (file_end m) pattern_size pattern mask
        = false)
  /\ (forall i, 0 <= i < pattern_size ->
        at_index mask i = 0 -> at_index pattern i <> 0 ->
        check_if_bytes_match m position (file_end m) pattern_size pattern mask
          = false).
Proof.
  intros Hps Hpos.
  pose proof (check_if_bytes_match_documented_iff m position pattern_size
                pattern mask Hps Hpos) as Hdoc.
  split; [exact Hdoc|]. split; [|split].
  - intros Hclean. apply check_if_bytes_match_masked_iff; assumption.
  - intros Hlong.
    apply not_true_is_false. intros E.
    apply Hdoc in E. destruct E as [Hfit _]. lia.
  - intros i Hi Hmask Hpat.
    apply not_true_is_false. intros E.
    apply Hdoc in E. destruct E as [_ Hall].
    specialize (Hall i Hi). rewrite Hmask, Z.land_0_r in Hall.
    apply Hpat. symmetry. exact Hall.
Qed.

(** A header is recognized exactly where the JFIF or the EXIF signature
    matches under the mask. *)
Lemma jpeg_is_header_spec m H :
  H <= file_end m ->
  jpeg_is_header m H (file_end m) = true <->
  masked_comparison m H 12 jfif_pattern jpeg_mask
  \/ masked_comparison m H 12 exif_pattern jpeg_mask.
Proof.
  intros HH. unfold jpeg_is_header. rewrite orb_true_iff.
  rewrite !check_if_bytes_match_masked_iff;
    try assumption; try (unfold jpeg_pattern_size; lia);
    try (intros i Hi; apply jpeg_patterns_clean; exact Hi).
  reflexivity.
Qed.

(** A data byte 00 against the pattern byte 01 under the mask 00: the code
    compares [00 & 00] with [01] and fails, the masked comparison compares
    [00 & 00] with [01 & 00] and holds. *)
Lemma check_if_bytes_match_not_masked_comparison :
  ~ (check_if_bytes_match (mapping [0]) 0 (file_end (mapping [0])) 1 [1] [0]
       = true
     <-> masked_comparison (mapping [0]) 0 1 [1] [0]).
Proof.
  intros [_ Hback].
  assert (Hm : masked_comparison (mapping [0]) 0 1 [1] [0]).
  { split; [vm_compute; discriminate|].
    intros i Hi. assert (i = 0) by lia. subst i. reflexivity. }
  specialize (Hback Hm). vm_compute in Hback. discriminate.
Qed.

Lemma check_if_bytes_match_spec_witness :
  (check_if_bytes_match (mapping [0xFF; 0x12; 0xD8]) 0 3 3
     [0xFF; 0; 0xD8] [0xFF; 0; 0xFF] = true
   <-> masked_comparison (mapping [0xFF; 0x12; 0xD8]) 0 3
         [0xFF; 0; 0xD8] [0xFF; 0; 0xFF]).
Proof.
  refine (proj1 (proj2 (check_if_bytes_match_spec
            (mapping [0xFF; 0x12; 0xD8]) 0 3
            [0xFF; 0; 0xD8] [0xFF; 0; 0xFF] _ _)) _).
  - lia.
  - vm_compute; discriminate.
  - intros i Hi.
    assert (Hcases : i = 0 \/ i = 1 \/ i = 2) by lia.
    destruct Hcases as [->|[->| ->]]; reflexivity.
Defined.

(** ** The JPEG footer search *)

Section FooterFacts.

Variable m : Memory.

Lemma terminator_dec p : {terminator_at m p} + {~ terminator_at m p}.
Proof.
  unfold terminator_at, eoi_at, continued_at.
  destruct (Z.eq_dec (byte_at m p) 0xFF) as [H0|H0];
    [|right; intros [[? ?] _]; contradiction].
  destruct (Z.eq_dec (byte_at m (p + 1)) 0xD9) as [H1|H1];
    [|right; intros [[? ?] _]; contradiction].
  destruct (Z_lt_dec (p + 3) (file_end m)) as [H3|H3];
    [|left; split; [split; assumption | intros [? _]; contradiction]].
  destruct (Z.eq_dec (byte_at m (p + 2)) 0xFF) as [H2|H2];
    [|left; split; [split; assumption | intros [_ [? _]]; contradiction]].
  destruct (Z.eq_dec (byte_at m (p + 3)) 0xE1) as [H4|H4];
    [|left; split; [split; assumption | intros [_ [_ ?]]; contradiction]].
  right. intros [_ Hn]. apply Hn. repeat split; assumption.
Qed.

(** One iteration at a terminator returns. *)
Lemma footer_loop_accept fuel mem max_mem :
  mem <= max_mem ->
  terminator_at m mem ->
  footer_loop m (S fuel) mem max_mem (file_end m) = Some (mem + 2).
Proof.
  intros Hle [[H0 H1] Hn]. simpl.
  apply Z.leb_le in Hle. rewrite Hle.
  unfold byte_at in H0, H1. rewrite H0, H1. simpl.
  destruct (mem + 3 >=? file_end m) eqn:E3; [reflexivity|].
  simpl.
  destruct (value (deref m (mem + 2)) =? 255) eqn:E2; [|reflexivity].
  destruct (value (deref m (mem + 3)) =? 225) eqn:E4; [|reflexivity].
  exfalso. apply Hn. unfold continued_at, byte_at.
  apply Z.eqb_eq in E2, E4. rewrite Z.geb_leb in E3. apply Z.leb_gt in E3.
  repeat split; assumption.
Qed.

(** One iteration anywhere else moves on by one byte. *)
Lemma footer_loop_skip fuel mem max_mem :
  mem <= max_mem ->
  ~ terminator_at m mem ->
  footer_loop m (S fuel) mem max_mem (file_end m)
  = footer_loop m fuel (mem + 1) max_mem (file_end m).
Proof.
  intros Hle Hn. simpl.
  apply Z.leb_le in Hle. rewrite Hle.
  destruct ((value (deref m mem) =? 255)
            && (value (deref m (mem + 1)) =? 217)) eqn:E; [|reflexivity].
  destruct ((mem + 3 >=? file_end m)
            || negb (value (deref m (mem + 2)) =? 255)
            || negb (value (deref m (mem + 3)) =? 225)) eqn:E'; [|reflexivity].
  exfalso. apply Hn.
  apply andb_prop in E as [E0 E1]. apply Z.eqb_eq in E0, E1.
  split; [split; assumption|].
  intros [H3 [H2 H4]]. unfold byte_at in H2, H4.
  rewrite H2, H4 in E'. simpl in E'.
  rewrite !orb_false_r in E'. rewrite Z.geb_leb in E'.
  apply Z.leb_le in E'. lia.
Qed.

Lemma footer_loop_first fuel mem max_mem F :
  mem <= F <= max_mem ->
  (Z.to_nat (F - mem) < fuel)%nat ->
  terminator_at m F ->
  (forall p, mem <= p < F -> ~ terminator_at m p) ->
  footer_loop m fuel mem max_mem (file_end m) = Some (F + 2).
Proof.
  revert mem; induction fuel as [|fuel IH]; intros mem Hr Hfuel HF Hfirst.
  - lia.
  - destruct (Z.eq_dec mem F) as [->|Hne].
    + apply footer_loop_accept; [lia | assumption].
    + rewrite footer_loop_skip; [|lia | apply Hfirst; lia].
      apply IH; [lia | lia | assumption | intros p Hp; apply Hfirst; lia].
Qed.

Lemma footer_loop_none fuel mem max_mem :
  (forall p, mem <= p <= max_mem -> ~ terminator_at m p) ->
  footer_loop m fuel mem max_mem (file_end m) = None.
Proof.
  revert mem; induction fuel as [|fuel IH]; intros mem Hnone; [reflexivity|].
  destruct (Z_le_gt_dec mem max_mem) as [Hle|Hgt].
  - rewrite footer_loop_skip; [|assumption | apply Hnone; lia].
    apply IH. intros p Hp. apply Hnone. lia.
  - simpl. replace (mem <=? max_mem) with false; [reflexivity|].
    symmetry. apply Z.leb_gt. lia.
Qed.

(** Whatever [endp] is, a returned pointer is two bytes past a position the
    loop visited. *)
Lemma footer_loop_some_range fuel mem max_mem endp e :
  footer_loop m fuel mem max_mem endp = Some e ->
  mem + 2 <= e <= max_mem + 2.
Proof.
  revert mem; induction fuel as [|fuel IH]; intros mem; simpl; [discriminate|].
  destruct (mem <=? max_mem) eqn:Hle; [|discriminate].
  apply Z.leb_le in Hle.
  destruct (_ && _).
  - destruct (_ || _ || _).
    + intros [= <-]. lia.
    + intros Hrec. apply IH in Hrec. lia.
  - intros Hrec. apply IH in Hrec. lia.
Qed.

Lemma footer_bound_spec mem endp :
  footer_bound mem endp = Z.min (endp - 2) (mem + max_length_bytes).
Proof.
  unfold footer_bound. cbv zeta.
  destruct (Z.gtb_spec (endp - 2) (mem + max_length_bytes)); lia.
Qed.

(** The search returns the end of the first terminator of the window. *)
Lemma jpeg_find_footer_first H F :
  H <= F ->
  F <= H + max_length_bytes ->
  F + 2 <= file_end m ->
  terminator_at m F ->
  (forall p, H <= p < F -> ~ terminator_at m p) ->
  jpeg_find_footer m H (file_end m) = Some (F + 2).
Proof.
  intros HF Hwin Hfit Hterm Hfirst. unfold jpeg_find_footer. cbv zeta.
  rewrite footer_bound_spec.
  apply footer_loop_first; [lia | lia | assumption | assumption].
Qed.

(** Without a terminator in the window the search returns [NULL]. *)
Lemma jpeg_find_footer_none H :
  (forall F, H <= F -> F <= H + max_length_bytes -> F + 2 <= file_end m ->
     ~ terminator_at m F) ->
  jpeg_find_footer m H (file_end m) = None.
Proof.
  intros Hnone. unfold jpeg_find_footer. cbv zeta.
  rewrite footer_bound_spec.
  apply footer_loop_none. intros p Hp. apply Hnone; lia.
Qed.

(** A returned pointer lies after [H] and within the buffer. *)
Lemma jpeg_find_footer_range H endp e :
  jpeg_find_footer m H endp = Some e -> H < e <= endp.
Proof.
  unfold jpeg_find_footer. cbv zeta. rewrite footer_bound_spec.
  intros Hsome. apply footer_loop_some_range in Hsome. lia.
Qed.

End FooterFacts.

(** ** The fragment sink and the JPEG detector *)

Section DetectorFacts.

Variable m : Memory.
Variable fopen_ok : string -> bool.

(** Every call of the sink is recorded, whether or not the file could be
    created. *)
Lemma write_fragment_sunk start endp ext w :
  sunk (world_of (write_fragment m fopen_ok start endp ext w))
  = sunk w ++ [{| frag_start := start; frag_end := endp; frag_ext := ext |}].
Proof.
  unfold write_fragment. cbv zeta.
  destruct (fopen_ok _); reflexivity.
Qed.

Lemma write_fragment_boundary start endp ext w :
  g_ascii_ignore_before (world_of (write_fragment m fopen_ok start endp ext w))
  = g_ascii_ignore_before w.
Proof.
  unfold write_fragment. cbv zeta.
  destruct (fopen_ok _); reflexivity.
Qed.

(** A stream that could not be opened kills the process: nothing is
    reported, nothing is written. *)
Lemma write_fragment_null_stream start endp ext w :
  fopen_ok (fragment_filename ext (to_uint64 (g_fragment_id w + 1))) = false ->
  exists w',
    write_fragment m fopen_ok start endp ext w = Crashed w'
    /\ cerr w' = cerr w /\ cout w' = cout w /\ disk w' = disk w.
Proof.
  intros Hfail. unfold write_fragment. cbv zeta. rewrite Hfail.
  eexists. split; [reflexivity|]. repeat split.
Qed.

(** With a stream, the sink creates the file from the bytes of the range,
    prints the [gzip] line and keeps running. *)
Lemma write_fragment_stream start endp ext w :
  fopen_ok (fragment_filename ext (to_uint64 (g_fragment_id w + 1))) = true ->
  exists w',
    write_fragment m fopen_ok start endp ext w = Running w'
    /\ disk w' = disk w ++
         [(fragment_filename ext (to_uint64 (g_fragment_id w + 1)),
           bytes_between m start endp)].
Proof.
  intros Hok. unfold write_fragment. cbv zeta. rewrite Hok.
  eexists. split; reflexivity.
Qed.

(** The sink and the JPEG detector load nothing outside the buffer: they
    never die on a load. *)
Lemma write_fragment_not_faulted start endp ext w w' :
  write_fragment m fopen_ok start endp ext w <> Faulted w'.
Proof.
  unfold write_fragment. cbv zeta. destruct (fopen_ok _); discriminate.
Qed.

Lemma jpeg_rescue_not_faulted cur endp w w' :
  jpeg_rescue m fopen_ok cur endp w <> Faulted w'.
Proof.
  unfold jpeg_rescue. destruct (jpeg_is_header m cur endp); [|discriminate].
  cbv zeta. destruct (jpeg_find_footer m cur endp); [|discriminate].
  apply write_fragment_not_faulted.
Qed.

Lemma jpeg_rescue_found H e w :
  jpeg_is_header m H (file_end m) = true ->
  jpeg_find_footer m H (file_end m) = Some e ->
  jpeg_rescue m fopen_ok H (file_end m) w
  = write_fragment m fopen_ok H e "jpg"
      (say JpegFooterFound (say (JpegHeaderFound (to_uint64 H)) w)).
Proof.
  intros Hhdr Hfoot. unfold jpeg_rescue. rewrite Hhdr, Hfoot. reflexivity.
Qed.

Lemma jpeg_rescue_not_found H w :
  jpeg_is_header m H (file_end m) = true ->
  jpeg_find_footer m H (file_end m) = None ->
  jpeg_rescue m fopen_ok H (file_end m) w
  = Running (say JpegFooterNotFound (say (JpegHeaderFound (to_uint64 H)) w)).
Proof.
  intros Hhdr Hfoot. unfold jpeg_rescue. rewrite Hhdr, Hfoot. reflexivity.
Qed.

End DetectorFacts.

(** [C3] For a buffer with a recognized JPEG header at offset [H]: if the
    first [FF D9] at or after [H] that is not immediately followed by
    [FF E1] starts at [F], with [F <= H + 40*1024*1024] and [F + 2] within
    the buffer, the JPEG detector hands exactly the fragment [[H, F+2)]
    tagged "jpg" to the sink; if the window holds no such [FF D9], the
    detector reports "footer not found", hands nothing to the sink and the
    scan goes on. *)
Theorem jpeg_rescue_emits_first_terminator m fopen_ok w H :
  jpeg_is_header m H (file_end m) = true ->
  (forall F,
      H <= F ->
      terminator_at m F ->
      (forall p, H <= p < F -> ~ terminator_at m p) ->
      F <= H + 40 * 1024 * 1024 ->
      F + 2 <= file_end m ->
      jpeg_rescue m fopen_ok H (file_end m) w
      = write_fragment m fopen_ok H (F + 2) "jpg"
          (say JpegFooterFound (say (JpegHeaderFound (to_uint64 H)) w))
      /\ sunk (world_of (jpeg_rescue m fopen_ok H (file_end m) w))
         = sunk w ++ [{| frag_start := H; frag_end := F + 2;
                         frag_ext := "jpg" |}])
  /\ ((forall F,
          H <= F -> F <= H + 40 * 1024 * 1024 -> F + 2 <= file_end m ->
          ~ terminator_at m F) ->
      jpeg_rescue m fopen_ok H (file_end m) w
      = Running
          (say JpegFooterNotFound (say (JpegHeaderFound (to_uint64 H)) w))
      /\ sunk (world_of (jpeg_rescue m fopen_ok H (file_end m) w)) = sunk w).
Proof.
  intros Hhdr. split.
  - intros F HF Hterm Hfirst Hwin Hfit.
    change (40 * 1024 * 1024) with max_length_bytes in Hwin.
    pose proof (jpeg_find_footer_first m H F HF Hwin Hfit Hterm Hfirst) as Hfoot.
    rewrite (jpeg_rescue_found m fopen_ok H (F + 2) w Hhdr Hfoot).
    split; [reflexivity|]. rewrite write_fragment_sunk. reflexivity.
  - intros Hnone.
    change (40 * 1024 * 1024) with max_length_bytes in Hnone.
    pose proof (jpeg_find_footer_none m H Hnone) as Hfoot.
    rewrite (jpeg_rescue_not_found m fopen_ok H w Hhdr Hfoot).
    split; reflexivity.
Qed.

(** [C4] A header at [H], a first [FF D9] at [F1] immediately followed by
    [FF E1], and a second [FF D9] at [F2] with no [FF E1] after it, all
    within the 40 MiB window: the candidate at [F1] is skipped and the
    fragment ends at [F2 + 2], the end of the second marker, not at
    [F1 + 2]. *)
Theorem jpeg_rescue_skips_continued_marker m fopen_ok w H F1 F2 :
  jpeg_is_header m H (file_end m) = true ->
  H <= F1 < F2 ->
  eoi_at m F1 ->
  continued_at m F1 ->
  eoi_at m F2 ->
  ~ continued_at m F2 ->
  (forall p, H <= p < F2 -> p <> F1 -> ~ eoi_at m p) ->
  F2 <= H + 40 * 1024 * 1024 ->
  F2 + 2 <= file_end m ->
  jpeg_find_footer m H (file_end m) = Some (F2 + 2)
  /\ jpeg_find_footer m H (file_end m) <> Some (F1 + 2)
  /\ sunk (world_of (jpeg_rescue m fopen_ok H (file_end m) w))
     = sunk w ++ [{| frag_start := H; frag_end := F2 + 2;
                     frag_ext := "jpg" |}].
Proof.
  intros Hhdr Hord He1 Hc1 He2 Hn2 Hothers Hwin Hfit.
  change (40 * 1024 * 1024) with max_length_bytes in Hwin.
  assert (Hfoot : jpeg_find_footer m H (file_end m) = Some (F2 + 2)).
  { apply jpeg_find_footer_first; try lia.
    - split; assumption.
    - intros p Hp [Hep Hcp]. destruct (Z.eq_dec p F1) as [->|Hne].
      + apply Hcp. exact Hc1.
      + apply (Hothers p Hp Hne). exact Hep. }
  split; [exact Hfoot|]. split.
  - rewrite Hfoot. intros [= Heq]. lia.
  - rewrite (jpeg_rescue_found m fopen_ok H (F2 + 2) w Hhdr Hfoot).
    rewrite write_fragment_sunk. reflexivity.
Qed.

(** [C10] In the footer search, a candidate [FF D9] at a position [p] with
    [p + 3 >= end] is accepted without a look at the two bytes after it:
    the loop returns [p + 2] whatever those bytes are.  Consequently a JPEG
    whose [FF D9] ends exactly at the buffer end is accepted: the search
    from its header returns the buffer end. *)
Theorem jpeg_find_footer_accepts_at_buffer_end m H p :
  eoi_at m p ->
  file_end m <= p + 3 ->
  (forall fuel max_mem,
      p <= max_mem ->
      footer_loop m (S fuel) p max_mem (file_end m) = Some (p + 2))
  /\ (H <= p ->
      p + 2 = file_end m ->
      p <= H + 40 * 1024 * 1024 ->
      (forall q, H <= q < p -> ~ terminator_at m q) ->
      jpeg_find_footer m H (file_end m) = Some (file_end m)).
Proof.
  intros Heoi Hend.
  assert (Hterm : terminator_at m p).
  { split; [exact Heoi|]. intros [Hlt _]. lia. }
  split.
  - intros fuel max_mem Hle. apply footer_loop_accept; assumption.
  - intros HHp Hlast Hwin Hfirst.
    change (40 * 1024 * 1024) with max_length_bytes in Hwin.
    rewrite (jpeg_find_footer_first m H p HHp Hwin ltac:(lia) Hterm Hfirst).
    f_equal. exact Hlast.
Qed.

(** ** The ASCII detector *)

Lemma offsets_succ lo n : offsets lo (S n) = lo :: offsets (lo + 1) n.
Proof.
  unfold offsets. simpl. f_equal; [lia|].
  rewrite <- seq_shift, map_map. apply map_ext. intros k. lia.
Qed.

Lemma offsets_in lo n p : In p (offsets lo n) <-> lo <= p < lo + Z.of_nat n.
Proof.
  unfold offsets. rewrite in_map_iff. split.
  - intros [k [<- Hk]]. apply in_seq in Hk. lia.
  - intros Hp. exists (Z.to_nat (p - lo)). split; [lia|].
    apply in_seq. lia.
Qed.

Lemma printable_test b :
  (b >=? 0x20) && (b <=? 0x7E) = true <-> printable b.
Proof.
  unfold printable. rewrite andb_true_iff, Z.geb_leb, !Z.leb_le. tauto.
Qed.

Lemma ptr_le_refl a : ptr_le a a.
Proof. destruct a; simpl; [lia | exact I]. Qed.

Lemma ptr_ltb_false_le cur q r :
  ptr_ltb cur q = false -> cur <= r -> ptr_le q (Some r).
Proof.
  destruct q as [b|]; simpl; [|intros; exact I].
  intros Hlt Hle. apply Z.ltb_ge in Hlt. lia.
Qed.

Section AsciiFacts.

Variable m : Memory.

(** From [cur], with the printable bytes of [[cur, run_end)] ahead and the
    run ended by the buffer end or by a byte outside the range, the loop
    stops at [run_end] after a load at every offset from [cur] to
    [run_end], both included. *)
Lemma ascii_loop_run fuel cur endp loads run_end :
  cur <= run_end <= endp ->
  (forall p, cur <= p < run_end -> printable (byte_at m p)) ->
  (run_end < endp -> ~ printable (byte_at m run_end)) ->
  (Z.to_nat (run_end - cur) < fuel)%nat ->
  ascii_loop m fuel cur endp loads
  = (run_end, loads ++ offsets cur (S (Z.to_nat (run_end - cur)))).
Proof.
  revert cur loads; induction fuel as [|fuel IH];
    intros cur loads Hr Hrun Hstop Hfuel; [lia|].
  simpl. destruct (Z.eq_dec cur run_end) as [->|Hne].
  - replace (Z.to_nat (run_end - run_end)) with O by lia.
    rewrite offsets_succ. simpl.
    destruct ((value (deref m run_end) >=? 32)
              && (value (deref m run_end) <=? 126)) eqn:Ep.
    + apply printable_test in Ep.
      destruct (run_end <? endp) eqn:El.
      * apply Z.ltb_lt in El. exfalso. apply (Hstop El). exact Ep.
      * reflexivity.
    + reflexivity.
  - assert (Hp : printable (byte_at m cur)) by (apply Hrun; lia).
    apply printable_test in Hp. unfold byte_at in Hp. rewrite Hp.
    assert (Hl : (cur <? endp) = true) by (apply Z.ltb_lt; lia).
    rewrite Hl. simpl.
    rewrite (IH (cur + 1) (loads ++ [cur]));
      [| lia | intros p Hp'; apply Hrun; lia | exact Hstop | lia].
    f_equal. rewrite <- app_assoc. f_equal.
    replace (Z.to_nat (run_end - cur))
      with (S (Z.to_nat (run_end - (cur + 1)))) by lia.
    rewrite (offsets_succ cur). reflexivity.
Qed.

(** The loop never steps back, and it steps forward only below [endp]. *)
Lemma ascii_loop_range fuel cur endp loads :
  cur <= fst (ascii_loop m fuel cur endp loads)
  /\ (fst (ascii_loop m fuel cur endp loads) <= endp
      \/ fst (ascii_loop m fuel cur endp loads) = cur).
Proof.
  revert cur loads; induction fuel as [|fuel IH]; intros cur loads; simpl.
  - lia.
  - destruct (_ && _ && _) eqn:E; simpl; [|lia].
    apply andb_prop in E as [_ E]. apply Z.ltb_lt in E.
    destruct (IH (cur + 1) (loads ++ [cur])) as [H1 H2]. lia.
Qed.

(** More fuel than the bytes left before [endp] changes nothing. *)
Lemma ascii_loop_fuel fuel fuel' cur endp loads :
  (Z.to_nat (endp - cur) < fuel)%nat ->
  (Z.to_nat (endp - cur) < fuel')%nat ->
  ascii_loop m fuel cur endp loads = ascii_loop m fuel' cur endp loads.
Proof.
  revert fuel' cur loads; induction fuel as [|fuel IH];
    intros fuel' cur loads Hf Hf'; [lia|].
  destruct fuel' as [|fuel']; [lia|]. simpl.
  destruct (_ && _ && _) eqn:E; [|reflexivity].
  apply andb_prop in E as [_ E]. apply Z.ltb_lt in E.
  apply IH; lia.
Qed.

Lemma ascii_scan_run cur run_end :
  cur <= run_end <= file_end m ->
  (forall p, cur <= p < run_end -> printable (byte_at m p)) ->
  (run_end < file_end m -> ~ printable (byte_at m run_end)) ->
  ascii_scan m cur (file_end m)
  = (run_end, offsets cur (S (Z.to_nat (run_end - cur)))).
Proof.
  intros Hr Hrun Hstop. unfold ascii_scan.
  rewrite (ascii_loop_run _ cur (file_end m) [] run_end Hr Hrun Hstop);
    [reflexivity | lia].
Qed.

(** A run that reaches the end of the buffer is followed by a load at the
    offset [file_end], outside the buffer. *)
Lemma ascii_scan_loads_end cur :
  cur <= file_end m ->
  (forall p, cur <= p < file_end m -> printable (byte_at m p)) ->
  In (file_end m) (snd (ascii_scan m cur (file_end m)))
  /\ in_bounds (deref m (file_end m)) = false.
Proof.
  intros Hr Hrun.
  rewrite (ascii_scan_run cur (file_end m)); [|lia | assumption | lia].
  split.
  - simpl snd. apply offsets_in. lia.
  - unfold deref. rewrite Z.ltb_irrefl, andb_false_r. reflexivity.
Qed.

Lemma in_bounds_deref p :
  in_bounds (deref m p) = (0 <=? p) && (p <? file_end m).
Proof. unfold deref. destruct ((0 <=? p) && (p <? file_end m)); reflexivity. Qed.

(** The loads of a run from [cur] to [r] succeed unless the run reaches the
    buffer end and nothing can be loaded there. *)
Lemma loads_succeed_run cur r :
  0 <= cur <= r ->
  r <= file_end m ->
  forallb (load_succeeds m) (offsets cur (S (Z.to_nat (r - cur))))
  = (r <? file_end m) || readable m (file_end m).
Proof.
  intros Hcur Hr.
  assert (Hin : forall p, cur <= p <= r -> p < file_end m ->
                  load_succeeds m p = true).
  { intros p Hp Hlt. unfold load_succeeds. rewrite in_bounds_deref.
    replace (0 <=? p) with true by (symmetry; apply Z.leb_le; lia).
    replace (p <? file_end m) with true by (symmetry; apply Z.ltb_lt; lia).
    reflexivity. }
  assert (Hend : load_succeeds m (file_end m) = readable m (file_end m)).
  { unfold load_succeeds. rewrite in_bounds_deref, Z.ltb_irrefl, andb_false_r.
    reflexivity. }
  destruct (forallb (load_succeeds m) (offsets cur (S (Z.to_nat (r - cur)))))
    eqn:E.
  - rewrite forallb_forall in E. symmetry.
    destruct (r <? file_end m) eqn:Hlt; [reflexivity|].
    apply Z.ltb_ge in Hlt. simpl. rewrite <- Hend.
    apply E. apply offsets_in. lia.
  - symmetry. apply not_true_is_false. intros Hok.
    assert (Hall : forallb (load_succeeds m)
                     (offsets cur (S (Z.to_nat (r - cur)))) = true).
    { apply forallb_forall. intros p Hp. apply offsets_in in Hp.
      destruct (Z_lt_le_dec p (file_end m)) as [Hlt|Hge];
        [apply Hin; lia|].
      assert (p = file_end m) by lia. subst p. rewrite Hend.
      replace (r <? file_end m) with false in Hok
        by (symmetry; apply Z.ltb_ge; lia).
      exact Hok. }
    rewrite Hall in E. discriminate.
Qed.

End AsciiFacts.

Section RunScan.

Variable m : Memory.

Lemma ascii_loop_result fuel cur endp loads :
  (Z.to_nat (endp - cur) < fuel)%nat ->
  cur <= fst (ascii_loop m fuel cur endp loads) <= Z.max cur endp
  /\ (forall p, cur <= p < fst (ascii_loop m fuel cur endp loads) ->
        printable (byte_at m p))
  /\ (fst (ascii_loop m fuel cur endp loads) < endp ->
      ~ printable (byte_at m (fst (ascii_loop m fuel cur endp loads))))
  /\ snd (ascii_loop m fuel cur endp loads)
     = loads ++ offsets cur
         (S (Z.to_nat (fst (ascii_loop m fuel cur endp loads) - cur))).
Proof.
  revert cur loads; induction fuel as [|fuel IH]; intros cur loads Hfuel;
    [lia|].
  simpl.
  destruct ((value (deref m cur) >=? 32) && (value (deref m cur) <=? 126))
    eqn:Ep; [destruct (cur <? endp) eqn:El|]; simpl.
  - apply Z.ltb_lt in El. apply printable_test in Ep.
    destruct (IH (cur + 1) (loads ++ [cur]) ltac:(lia))
      as [Hr [Hrun [Hstop Hloads]]].
    set (r := fst (ascii_loop m fuel (cur + 1) endp (loads ++ [cur]))) in *.
    split; [lia|]. split; [|split; [exact Hstop|]].
    + intros p Hp. destruct (Z.eq_dec p cur) as [->|Hne]; [exact Ep|].
      apply Hrun. lia.
    + rewrite Hloads, <- app_assoc. f_equal.
      replace (Z.to_nat (r - cur)) with (S (Z.to_nat (r - (cur + 1))))
        by lia.
      rewrite (offsets_succ cur). reflexivity.
  - apply Z.ltb_ge in El.
    replace (Z.to_nat (cur - cur)) with O by lia. rewrite offsets_succ.
    split; [lia|]. split; [intros p Hp; lia|]. split; [lia | reflexivity].
  - replace (Z.to_nat (cur - cur)) with O by lia. rewrite offsets_succ.
    split; [lia|]. split; [intros p Hp; lia|]. split; [|reflexivity].
    intros _ Hp. apply printable_test in Hp. unfold byte_at in Hp.
    rewrite Hp in Ep. discriminate.
Qed.

Lemma ascii_scan_result cur endp :
  cur <= fst (ascii_scan m cur endp) <= Z.max cur endp
  /\ (forall p, cur <= p < fst (ascii_scan m cur endp) ->
        printable (byte_at m p))
  /\ (fst (ascii_scan m cur endp) < endp ->
      ~ printable (byte_at m (fst (ascii_scan m cur endp))))
  /\ snd (ascii_scan m cur endp)
     = offsets cur (S (Z.to_nat (fst (ascii_scan m cur endp) - cur))).
Proof.
  unfold ascii_scan.
  apply (ascii_loop_result (S (Z.to_nat (endp - cur))) cur endp []). lia.
Qed.

(** The loads of a scan from within the buffer succeed unless it reaches the
    buffer end and nothing can be loaded there. *)
Lemma loads_succeed_scan cur :
  0 <= cur <= file_end m ->
  forallb (load_succeeds m) (snd (ascii_scan m cur (file_end m)))
  = (fst (ascii_scan m cur (file_end m)) <? file_end m)
    || readable m (file_end m).
Proof.
  intros Hcur.
  destruct (ascii_scan_result cur (file_end m)) as [Hr [_ [_ Hloads]]].
  rewrite Hloads. apply loads_succeed_run; lia.
Qed.

End RunScan.

(** [C2] (the code at the failing input) On the one-byte buffer ["A"] the
    run scan from offset 0 loads the offsets 0 and 1: the second load is at
    the buffer length, and the lookup takes its out-of-bounds branch. *)
Theorem ascii_scan_loads_past_buffer_end :
  ascii_scan (mapping [0x41]) 0 (file_end (mapping [0x41])) = (1, [0; 1])
  /\ file_end (mapping [0x41]) = 1
  /\ deref (mapping [0x41]) 1 = OutOfBounds 0
  /\ ~ Forall (fun p => p < file_end (mapping [0x41]))
         (snd (ascii_scan (mapping [0x41]) 0 (file_end (mapping [0x41])))).
Proof.
  repeat split; try reflexivity.
  intros Hall. vm_compute in Hall.
  inversion Hall as [|? ? _ Htail]. inversion Htail as [|? ? Hone _].
  discriminate Hone.
Qed.

Section AsciiRescueFacts.

Variable m : Memory.
Variable fopen_ok : string -> bool.

Lemma ascii_rescue_suppressed cur endp w :
  ptr_ltb cur (g_ascii_ignore_before w) = true ->
  ascii_rescue m fopen_ok cur endp w = Running w.
Proof. intros Hlt. unfold ascii_rescue. rewrite Hlt. reflexivity. Qed.

(** The detector never moves its boundary back. *)
Lemma ascii_rescue_monotone cur endp w :
  ptr_le (g_ascii_ignore_before w)
         (g_ascii_ignore_before
            (world_of (ascii_rescue m fopen_ok cur endp w))).
Proof.
  unfold ascii_rescue. cbv zeta.
  destruct (ptr_ltb cur (g_ascii_ignore_before w)) eqn:Hlt;
    [apply ptr_le_refl|].
  unfold ascii_scan.
  destruct (ascii_loop_range m (S (Z.to_nat (endp - cur))) cur endp [])
    as [Hge _].
  set (r := fst (ascii_loop m (S (Z.to_nat (endp - cur))) cur endp [])) in *.
  destruct (forallb _ _); [|apply ptr_le_refl].
  destruct (to_uint64 (r - cur) >=? min_size_bytes).
  - pose proof (write_fragment_boundary m fopen_ok cur r "txt"
                  (say (AsciiFound (to_uint64 (r - cur))) w)) as Hb.
    destruct (write_fragment _ _ _ _ _ _) as [w'|w'|w']; simpl in *.
    + eapply ptr_ltb_false_le; eassumption.
    + rewrite Hb. apply ptr_le_refl.
    + rewrite Hb. apply ptr_le_refl.
  - simpl. eapply ptr_ltb_false_le; eassumption.
Qed.

(** The JPEG detector leaves the boundary alone. *)
Lemma jpeg_rescue_boundary cur endp w :
  g_ascii_ignore_before (world_of (jpeg_rescue m fopen_ok cur endp w))
  = g_ascii_ignore_before w.
Proof.
  unfold jpeg_rescue. destruct (jpeg_is_header m cur endp); [|reflexivity].
  cbv zeta. destruct (jpeg_find_footer m cur endp); [|reflexivity].
  rewrite write_fragment_boundary. reflexivity.
Qed.

Lemma invoke_monotone endp c w :
  ptr_le (g_ascii_ignore_before w)
         (g_ascii_ignore_before (world_of (invoke m fopen_ok endp c w))).
Proof.
  destruct c as [cur|cur]; simpl.
  - rewrite jpeg_rescue_boundary. apply ptr_le_refl.
  - apply ascii_rescue_monotone.
Qed.

End AsciiRescueFacts.


(** A run that reaches the buffer end with nothing mapped behind it: the
    detector dies on its last load, the boundary as it was. *)
Lemma ascii_rescue_dies_at_unmapped_end m fopen_ok w position :
  0 <= position <= file_end m ->
  ptr_ltb position (g_ascii_ignore_before w) = false ->
  (forall p, position <= p < file_end m -> printable (byte_at m p)) ->
  readable m (file_end m) = false ->
  ascii_rescue m fopen_ok position (file_end m) w = Faulted w.
Proof.
  intros Hpos Hbnd Hrun Hread.
  unfold ascii_rescue. rewrite Hbnd. cbv zeta.
  rewrite (ascii_scan_run m position (file_end m)); [|lia | exact Hrun | lia].
  cbv [snd]. rewrite loads_succeed_run by lia.
  rewrite Z.ltb_irrefl, Hread. reflexivity.
Qed.

(** The one-byte buffer ["A"] with nothing mapped behind it. *)
Example ascii_rescue_dies_on_A :
  ascii_rescue (isolated [0x41]) (fun _ => true) 0 1 initial_world
  = Faulted initial_world.
Proof. reflexivity. Qed.

(** [C8] The ASCII Suppression Boundary only moves forward: along every
    sequence of detector calls, at whatever positions, the value after each
    call is greater than or equal to the value before it. *)
Theorem suppression_boundary_monotone m fopen_ok endp calls w :
  Sorted ptr_le
    (g_ascii_ignore_before w :: boundary_history m fopen_ok endp calls w).
Proof.
  revert w; induction calls as [|c calls IH]; intros w; simpl.
  - repeat constructor.
  - pose proof (invoke_monotone m fopen_ok endp c w) as Hstep.
    destruct (invoke m fopen_ok endp c w) as [w'|w'|w']; simpl in Hstep.
    + constructor; [apply IH | constructor; exact Hstep].
    + repeat constructor. exact Hstep.
    + repeat constructor. exact Hstep.
Qed.

(** ** The scan driver *)

Section DriverFacts.

Variable m : Memory.
Variable fopen_ok : string -> bool.

(** With [n] bytes between the cursor and [endp], the loop runs its body at
    the [n] offsets from the cursor on, one after the other, and is left
    after that. *)
Lemma scan_loop_visits n fuel cur endp st_size percent_complete w :
  cur + Z.of_nat n = endp ->
  (n < fuel)%nat ->
  scan_loop m fopen_ok fuel cur endp st_size percent_complete w
  = Some (visit_offsets m fopen_ok endp st_size (offsets cur n)
            percent_complete w).
Proof.
  revert fuel cur percent_complete w; induction n as [|n IH];
    intros fuel cur pc w Hend Hfuel;
    (destruct fuel as [|fuel]; [lia|]).
  - simpl. replace (cur =? endp) with true by (symmetry; apply Z.eqb_eq; lia).
    reflexivity.
  - rewrite offsets_succ. simpl.
    replace (cur =? endp) with false by (symmetry; apply Z.eqb_neq; lia).
    simpl. destruct (report_progress cur st_size pc w) as [pc' w1].
    destruct (jpeg_rescue m fopen_ok cur endp w1) as [w2|w2|w2];
      [|reflexivity|reflexivity].
    simpl. destruct (ascii_rescue m fopen_ok cur endp w2) as [w3|w3|w3];
      [|reflexivity|reflexivity].
    simpl. apply IH; lia.
Qed.

Lemma main_visits :
  main m fopen_ok
  = Some (complete
            (visit_offsets m fopen_ok (file_end m) (file_end m)
               (offsets 0 (List.length (file_bytes m))) 0
               (say (Opened (file_end m / (1024 * 1024))) initial_world))).
Proof.
  unfold main. cbv zeta.
  rewrite (scan_loop_visits (List.length (file_bytes m)));
    [| unfold file_end; lia | unfold file_end; lia].
  destruct (visit_offsets _ _ _ _ _ _ _) as [w'|w'|w']; reflexivity.
Qed.

Lemma report_progress_sunk cur st_size pc w :
  sunk (snd (report_progress cur st_size pc w)) = sunk w.
Proof.
  unfold report_progress. cbv zeta. destruct (_ >? _); reflexivity.
Qed.

Lemma jpeg_rescue_within cur w :
  Forall (within_buffer m) (sunk w) ->
  Forall (within_buffer m)
    (sunk (world_of (jpeg_rescue m fopen_ok cur (file_end m) w))).
Proof.
  intros Hall. unfold jpeg_rescue.
  destruct (jpeg_is_header m cur (file_end m)); [|exact Hall].
  cbv zeta. destruct (jpeg_find_footer m cur (file_end m)) as [e|] eqn:Hfoot;
    [|exact Hall].
  rewrite write_fragment_sunk. apply Forall_app. split; [exact Hall|].
  constructor; [|constructor].
  apply jpeg_find_footer_range in Hfoot. exact Hfoot.
Qed.

Lemma to_uint64_threshold d :
  0 <= d -> (to_uint64 d >=? min_size_bytes) = true -> 1024 <= d.
Proof.
  unfold to_uint64, min_size_bytes. intros Hd Hge.
  rewrite Z.geb_leb in Hge. apply Z.leb_le in Hge.
  pose proof (Z.mod_le d (2 ^ 64) Hd ltac:(lia)). lia.
Qed.

Lemma ascii_rescue_within cur w :
  Forall (within_buffer m) (sunk w) ->
  Forall (within_buffer m)
    (sunk (world_of (ascii_rescue m fopen_ok cur (file_end m) w))).
Proof.
  intros Hall. unfold ascii_rescue. cbv zeta.
  destruct (ptr_ltb cur (g_ascii_ignore_before w)); [exact Hall|].
  unfold ascii_scan.
  destruct (ascii_loop_range m (S (Z.to_nat (file_end m - cur))) cur
              (file_end m) []) as [Hge Hle].
  set (r := fst (ascii_loop m (S (Z.to_nat (file_end m - cur))) cur
                   (file_end m) [])) in *.
  destruct (forallb _ _); [|exact Hall].
  destruct (to_uint64 (r - cur) >=? min_size_bytes) eqn:Hlong;
    [|exact Hall].
  apply to_uint64_threshold in Hlong; [|lia].
  pose proof (write_fragment_sunk m fopen_ok cur r "txt"
                (say (AsciiFound (to_uint64 (r - cur))) w)) as Hs.
  assert (Hnew : Forall (within_buffer m)
                   (sunk w ++ [{| frag_start := cur; frag_end := r;
                                  frag_ext := "txt" |}])).
  { apply Forall_app. split; [exact Hall|].
    constructor; [|constructor]. unfold within_buffer. simpl. lia. }
  destruct (write_fragment _ _ _ _ _ _) as [w'|w'|w']; simpl in *;
    rewrite Hs; exact Hnew.
Qed.

Lemma visit_offsets_within positions pc w :
  Forall (within_buffer m) (sunk w) ->
  Forall (within_buffer m)
    (sunk (world_of (visit_offsets m fopen_ok (file_end m) (file_end m)
                       positions pc w))).
Proof.
  revert pc w; induction positions as [|cur positions IH]; intros pc w Hall;
    simpl; [exact Hall|].
  pose proof (report_progress_sunk cur (file_end m) pc w) as Hp.
  destruct (report_progress cur (file_end m) pc w) as [pc' w1].
  simpl in Hp. rewrite <- Hp in Hall.
  pose proof (jpeg_rescue_within cur w1 Hall) as Hj.
  destruct (jpeg_rescue m fopen_ok cur (file_end m) w1) as [w2|w2|w2];
    simpl in *; [|exact Hj|exact Hj].
  pose proof (ascii_rescue_within cur w2 Hj) as Ha.
  destruct (ascii_rescue m fopen_ok cur (file_end m) w2) as [w3|w3|w3];
    simpl in *; [|exact Ha|exact Ha].
  apply IH. exact Ha.
Qed.

Hypothesis fopen_succeeds : forall name, fopen_ok name = true.



(** The byte behind the buffer can be loaded, or no run reaches the buffer
    end. *)
Hypothesis end_harmless :
  readable m (file_end m) = true
  \/ ~ printable (byte_at m (file_end m - 1)).



End DriverFacts.



(** An all-printable buffer with nothing mapped behind it: the scan dies at
    offset 0, on the load that ends the first run, and the offsets after it
    are never visited. *)
Example main_dies_at_unmapped_end :
  main (isolated [0x41; 0x42; 0x43]) (fun _ => true)
  = Some (Faulted
            {| g_fragment_id := 0;
               g_ascii_ignore_before := None;
               cout := [];
               cerr := [Opened 0];
               disk := [];
               sunk := [] |}).
Proof. reflexivity. Qed.

(** [C7] Every fragment handed to the sink during a scan, by the JPEG
    detector or by the ASCII detector, over any buffer, has
    [start < end <= length]. *)
Theorem fragments_within_buffer m fopen_ok :
  exists o,
    main m fopen_ok = Some o
    /\ Forall (fun f => frag_start f < frag_end f <= file_end m)
         (sunk (world_of o)).
Proof.
  rewrite main_visits. eexists. split; [reflexivity|].
  pose proof (visit_offsets_within m fopen_ok
                (offsets 0 (List.length (file_bytes m))) 0
                (say (Opened (file_end m / (1024 * 1024))) initial_world)
                (Forall_nil _)) as Hall.
  destruct (visit_offsets _ _ _ _ _ _ _) as [w'|w'|w']; exact Hall.
Qed.

(** [C1] (the code at the failing input) A 17-byte buffer that starts with
    a complete JPEG, on a file system where no file can be created: the
    scan dies in the sink at offset 0.  Nothing tells of the failure, the
    offsets 1 to 16 are never visited, and no completion is reported. *)
Theorem main_dies_when_fopen_fails :
  main (mapping [0xFF; 0xD8; 0xFF; 0xE0; 0; 16; 0x4A; 0x46; 0x49; 0x46; 0; 1;
                 0xFF; 0xD9; 0; 0; 0])
       (fun _ => false)
  = Some (Crashed
            {| g_fragment_id := 1;
               g_ascii_ignore_before := None;
               cout := [];
               cerr := [Opened 0; JpegHeaderFound 0; JpegFooterFound];
               disk := [];
               sunk := [{| frag_start := 0; frag_end := 14;
                           frag_ext := "jpg" |}] |}).
Proof. vm_compute. reflexivity. Qed.

(** ** Concrete buffers *)

Lemma printable_run_check m lo n :
  forallb (fun p => printable_b (byte_at m p)) (offsets lo n) = true ->
  forall p, lo <= p < lo + Z.of_nat n -> printable (byte_at m p).
Proof.
  intros Hall p Hp. rewrite forallb_forall in Hall.
  specialize (Hall p (proj2 (offsets_in lo n p) Hp)).
  unfold printable_b in Hall. apply andb_prop in Hall as [H1 H2].
  apply Z.leb_le in H1, H2. split; assumption.
Qed.

Lemma jpeg_rescue_emits_first_terminator_witness :
  sunk (world_of
          (jpeg_rescue
             (mapping [0xFF; 0xD8; 0xFF; 0xE0; 0; 16; 0x4A; 0x46; 0x49; 0x46;
                       0; 1; 1; 2; 3; 0xFF; 0xD9; 0; 0])
             (fun _ => true) 0
             (file_end
                (mapping [0xFF; 0xD8; 0xFF; 0xE0; 0; 16; 0x4A; 0x46; 0x49;
                          0x46; 0; 1; 1; 2; 3; 0xFF; 0xD9; 0; 0]))
             initial_world))
  = sunk initial_world
    ++ [{| frag_start := 0; frag_end := 15 + 2; frag_ext := "jpg" |}].
Proof.
  refine (proj2 (proj1 (jpeg_rescue_emits_first_terminator
            (mapping [0xFF; 0xD8; 0xFF; 0xE0; 0; 16; 0x4A; 0x46; 0x49; 0x46;
                      0; 1; 1; 2; 3; 0xFF; 0xD9; 0; 0])
            (fun _ => true) initial_world 0 _) 15 _ _ _ _ _)).
  - vm_compute. reflexivity.
  - lia.
  - split; [split; reflexivity|].
    intros [_ [H2 _]]. vm_compute in H2. discriminate.
  - intros p Hp [[E0 E1] _].
    by_offset p 0 15%nat
      ltac:(vm_compute in E0, E1; first [discriminate E0 | discriminate E1]).
  - lia.
  - vm_compute. discriminate.
Defined.

Lemma jpeg_rescue_skips_continued_marker_witness :
  jpeg_find_footer
    (mapping [0xFF; 0xD8; 0xFF; 0xE0; 0; 16; 0x4A; 0x46; 0x49; 0x46; 0; 1;
              0xFF; 0xD9; 0xFF; 0xE1; 7; 0xFF; 0xD9])
    0
    (file_end
       (mapping [0xFF; 0xD8; 0xFF; 0xE0; 0; 16; 0x4A; 0x46; 0x49; 0x46; 0; 1;
                 0xFF; 0xD9; 0xFF; 0xE1; 7; 0xFF; 0xD9]))
  = Some (17 + 2).
Proof.
  refine (proj1 (jpeg_rescue_skips_continued_marker
            (mapping [0xFF; 0xD8; 0xFF; 0xE0; 0; 16; 0x4A; 0x46; 0x49; 0x46;
                      0; 1; 0xFF; 0xD9; 0xFF; 0xE1; 7; 0xFF; 0xD9])
            (fun _ => true) initial_world 0 12 17 _ _ _ _ _ _ _ _ _)).
  - vm_compute. reflexivity.
  - lia.
  - split; reflexivity.
  - split; [vm_compute; reflexivity | split; reflexivity].
  - split; reflexivity.
  - intros [Hlt _]. vm_compute in Hlt. discriminate.
  - intros p Hp Hp12 [E0 E1].
    by_offset p 0 17%nat
      ltac:(first [ exfalso; apply Hp12; reflexivity
                  | vm_compute in E0, E1;
                    first [discriminate E0 | discriminate E1] ]).
  - lia.
  - vm_compute. discriminate.
Defined.

Lemma jpeg_find_footer_accepts_at_buffer_end_witness :
  (forall fuel max_mem,
      12 <= max_mem ->
      footer_loop
        {| file_bytes := [0xFF; 0xD8; 0xFF; 0xE0; 0; 16; 0x4A; 0x46; 0x49;
                          0x46; 0; 1; 0xFF; 0xD9];
           beyond := fun q => if q =? 14 then 0xFF else 0xE1;
           readable := fun _ => true |}
        (S fuel) 12 max_mem 14 = Some 14)
  /\ (0 <= 12 -> 12 + 2 = 14 -> 12 <= 0 + 40 * 1024 * 1024 ->
      (forall q, 0 <= q < 12 ->
         ~ terminator_at
             {| file_bytes := [0xFF; 0xD8; 0xFF; 0xE0; 0; 16; 0x4A; 0x46;
                               0x49; 0x46; 0; 1; 0xFF; 0xD9];
                beyond := fun q => if q =? 14 then 0xFF else 0xE1;
           readable := fun _ => true |} q) ->
      jpeg_find_footer
        {| file_bytes := [0xFF; 0xD8; 0xFF; 0xE0; 0; 16; 0x4A; 0x46; 0x49;
                          0x46; 0; 1; 0xFF; 0xD9];
           beyond := fun q => if q =? 14 then 0xFF else 0xE1;
           readable := fun _ => true |}
        0 14 = Some 14).
Proof.
  refine (jpeg_find_footer_accepts_at_buffer_end
            {| file_bytes := [0xFF; 0xD8; 0xFF; 0xE0; 0; 16; 0x4A; 0x46;
                              0x49; 0x46; 0; 1; 0xFF; 0xD9];
               beyond := fun q => if q =? 14 then 0xFF else 0xE1;
           readable := fun _ => true |}
            0 12 _ _).
  - split; reflexivity.
  - vm_compute. discriminate.
Defined.


(** ** End-to-end runs *)

(** A JFIF header, 500 further bytes and [FF D9]: one "jpg" fragment of
    514 bytes, written to [jpg-fragment-1.jpg]. *)
Example scan_jpeg_514 :
  exists w,
    main (mapping ([0xFF; 0xD8; 0xFF; 0xE0; 0; 16; 0x4A; 0x46; 0x49; 0x46;
                    0; 1] ++ repeat 0 500 ++ [0xFF; 0xD9]))
         (fun _ => true) = Some (Running w)
    /\ sunk w = [{| frag_start := 0; frag_end := 514; frag_ext := "jpg" |}]
    /\ cout w = ["gzip jpg-fragment-1.jpg"%string]
    /\ map fst (disk w) = ["jpg-fragment-1.jpg"%string]
    /\ map (fun f => Z.of_nat (List.length (snd f))) (disk w) = [514].
Proof. eexists. vm_compute. repeat split. Qed.

(** 2000 printable bytes: one "txt" fragment of 2000 bytes. *)
Example scan_text_2000 :
  exists w,
    main (mapping (repeat 0x61 2000)) (fun _ => true) = Some (Running w)
    /\ sunk w = [{| frag_start := 0; frag_end := 2000; frag_ext := "txt" |}]
    /\ g_ascii_ignore_before w = Some 2000
    /\ cout w = ["gzip txt-fragment-1.txt"%string].
Proof. eexists. vm_compute. repeat split. Qed.

(** 500 printable bytes: no fragment, and the run is scanned once. *)
Example scan_text_500 :
  exists w,
    main (mapping (repeat 0x61 500)) (fun _ => true) = Some (Running w)
    /\ sunk w = []
    /\ g_ascii_ignore_before w = Some 500
    /\ disk w = [].
Proof. eexists. vm_compute. repeat split. Qed.

(** * Further properties of the detectors *)

(** ** Header recognition *)

Lemma byte_at_in_range m p :
  0 <= p < file_end m ->
  byte_at m p = nth (Z.to_nat p) (file_bytes m) 0.
Proof.
  intros Hp. unfold byte_at, deref.
  replace ((0 <=? p) && (p <? file_end m)) with true; [reflexivity|].
  symmetry. apply andb_true_iff. split; [apply Z.leb_le | apply Z.ltb_lt]; lia.
Qed.

Lemma byte_at_uint8 m p :
  well_formed m -> 0 <= p < file_end m -> 0 <= byte_at m p < 256.
Proof.
  intros Hwf Hp. rewrite byte_at_in_range by assumption.
  unfold well_formed in Hwf. rewrite Forall_forall in Hwf.
  apply Hwf. apply nth_In. unfold file_end in Hp. lia.
Qed.

Lemma land_255 b : 0 <= b < 256 -> Z.land b 255 = b.
Proof.
  intros Hb. change 255 with (Z.ones 8).
  rewrite Z.land_ones by lia. apply Z.mod_small. exact Hb.
Qed.

(** The four fixed bytes at the head of a recognized header. *)
Lemma jpeg_header_bytes m H :
  well_formed m ->
  0 <= H <= file_end m ->
  jpeg_is_header m H (file_end m) = true ->
  H + 12 <= file_end m
  /\ byte_at m H = 0xFF
  /\ byte_at m (H + 1) = 0xD8
  /\ byte_at m (H + 2) = 0xFF
  /\ (byte_at m (H + 3) = 0xE0 \/ byte_at m (H + 3) = 0xE1).
Proof.
  intros Hwf HH Hhdr.
  apply jpeg_is_header_spec in Hhdr; [|lia].
  assert (Hland : forall i, 0 <= i < 4 -> H + 12 <= file_end m ->
            Z.land (byte_at m (H + i)) 255 = byte_at m (H + i)).
  { intros i Hi Hfit. apply land_255. apply byte_at_uint8; [assumption | lia]. }
  destruct Hhdr as [[Hfit Hall]|[Hfit Hall]];
    (split; [exact Hfit|]);
    pose proof (Hall 0 ltac:(lia)) as H0;
    pose proof (Hall 1 ltac:(lia)) as H1;
    pose proof (Hall 2 ltac:(lia)) as H2;
    pose proof (Hall 3 ltac:(lia)) as H3;
    cbv [at_index jfif_pattern exif_pattern jpeg_mask nth Z.to_nat
         Pos.to_nat Pos.iter_op Nat.add] in H0, H1, H2, H3;
    rewrite Hland in H0, H1, H2, H3 by lia;
    rewrite Z.add_0_r in H0;
    repeat split; try assumption; [left|right]; exact H3.
Qed.

(** [X1] A JPEG header is recognized at a position of the buffer exactly
    when the twelve bytes from there on lie within the buffer and match the
    JFIF or the EXIF signature outside the two wildcarded length bytes; a
    position with fewer than twelve bytes left is never a header. *)
Theorem jpeg_is_header_recognizes_signatures m H :
  H <= file_end m ->
  (jpeg_is_header m H (file_end m) = true <->
   masked_comparison m H 12 jfif_pattern jpeg_mask
   \/ masked_comparison m H 12 exif_pattern jpeg_mask)
  /\ (file_end m < H + 12 -> jpeg_is_header m H (file_end m) = false).
Proof.
  intros HH. split; [apply jpeg_is_header_spec; exact HH|].
  intros Hshort. apply not_true_is_false. intros Hhdr.
  apply jpeg_is_header_spec in Hhdr; [|exact HH].
  destruct Hhdr as [[Hfit _]|[Hfit _]]; lia.
Qed.

Lemma jpeg_is_header_recognizes_signatures_witness :
  jpeg_is_header
    (mapping [0xFF; 0xD8; 0xFF; 0xE1; 0x2A; 0x7F; 0x45; 0x78; 0x69; 0x66;
              0; 0; 9])
    0 13 = true.
Proof.
  refine (proj2 (proj1 (jpeg_is_header_recognizes_signatures
            (mapping [0xFF; 0xD8; 0xFF; 0xE1; 0x2A; 0x7F; 0x45; 0x78; 0x69;
                      0x66; 0; 0; 9]) 0 _)) _).
  - vm_compute. discriminate.
  - right. split; [vm_compute; discriminate|].
    intros i Hi. by_offset i 0 12%nat ltac:(reflexivity).
Defined.

(** ** What the footer search returns *)

Section FooterSoundness.

Variable m : Memory.

Lemma footer_loop_some fuel mem max_mem e :
  footer_loop m fuel mem max_mem (file_end m) = Some e ->
  mem <= e - 2 <= max_mem
  /\ terminator_at m (e - 2)
  /\ (forall p, mem <= p < e - 2 -> ~ terminator_at m p).
Proof.
  revert mem; induction fuel as [|fuel IH]; intros mem Hsome;
    [discriminate|].
  destruct (Z_le_gt_dec mem max_mem) as [Hle|Hgt].
  - destruct (terminator_dec m mem) as [Hterm|Hno].
    + rewrite footer_loop_accept in Hsome by assumption.
      injection Hsome as <-. replace (mem + 2 - 2) with mem by lia.
      split; [lia|]. split; [exact Hterm|]. intros p Hp. lia.
    + rewrite footer_loop_skip in Hsome by assumption.
      apply IH in Hsome. destruct Hsome as [Hr [Hterm Hfirst]].
      split; [lia|]. split; [exact Hterm|].
      intros p Hp. destruct (Z.eq_dec p mem) as [->|Hne]; [exact Hno|].
      apply Hfirst. lia.
  - simpl in Hsome.
    replace (mem <=? max_mem) with false in Hsome
      by (symmetry; apply Z.leb_gt; lia).
    discriminate.
Qed.

Lemma footer_loop_none_inv fuel mem max_mem :
  (Z.to_nat (max_mem - mem + 1) <= fuel)%nat ->
  footer_loop m fuel mem max_mem (file_end m) = None ->
  forall p, mem <= p <= max_mem -> ~ terminator_at m p.
Proof.
  revert mem; induction fuel as [|fuel IH]; intros mem Hfuel Hnone p Hp.
  - lia.
  - destruct (terminator_dec m mem) as [Hterm|Hno].
    + rewrite footer_loop_accept in Hnone by (assumption || lia).
      discriminate.
    + rewrite footer_loop_skip in Hnone by (assumption || lia).
      destruct (Z.eq_dec p mem) as [->|Hne]; [exact Hno|].
      apply (IH (mem + 1)); [lia | exact Hnone | lia].
Qed.

Lemma jpeg_find_footer_some H e :
  jpeg_find_footer m H (file_end m) = Some e ->
  H <= e - 2 /\ e - 2 <= H + max_length_bytes /\ e <= file_end m
  /\ terminator_at m (e - 2)
  /\ (forall p, H <= p < e - 2 -> ~ terminator_at m p).
Proof.
  unfold jpeg_find_footer. cbv zeta. rewrite footer_bound_spec.
  intros Hsome. apply footer_loop_some in Hsome.
  destruct Hsome as [Hr [Hterm Hfirst]].
  split; [lia|]. split; [lia|]. split; [lia|]. split; assumption.
Qed.

Lemma jpeg_find_footer_none_inv H :
  jpeg_find_footer m H (file_end m) = None ->
  forall F, H <= F -> F <= H + max_length_bytes -> F + 2 <= file_end m ->
    ~ terminator_at m F.
Proof.
  unfold jpeg_find_footer. cbv zeta. rewrite footer_bound_spec.
  intros Hnone F HF Hwin Hfit.
  refine (footer_loop_none_inv _ _ _ _ Hnone F _); lia.
Qed.

End FooterSoundness.

(** [X2] Whatever the footer search returns is right: a returned pointer
    [e] is the end of an [FF D9] that is not continued by [FF E1], lies
    within the buffer and within 40 MiB of the header position, and no such
    marker starts earlier; [NULL] is returned only when the window holds no
    such marker at all. *)
Theorem jpeg_find_footer_sound m H :
  match jpeg_find_footer m H (file_end m) with
  | Some e =>
      H <= e - 2 /\ e - 2 <= H + 40 * 1024 * 1024 /\ e <= file_end m
      /\ terminator_at m (e - 2)
      /\ (forall p, H <= p < e - 2 -> ~ terminator_at m p)
  | None =>
      forall F, H <= F -> F <= H + 40 * 1024 * 1024 -> F + 2 <= file_end m ->
        ~ terminator_at m F
  end.
Proof.
  change (40 * 1024 * 1024) with max_length_bytes.
  destruct (jpeg_find_footer m H (file_end m)) as [e|] eqn:Hfoot.
  - apply jpeg_find_footer_some. exact Hfoot.
  - apply jpeg_find_footer_none_inv. exact Hfoot.
Qed.

(** The end-of-image marker of a JPEG cannot start within the first four
    bytes of its header. *)
Lemma eoi_after_header_bytes m H F :
  well_formed m ->
  0 <= H <= file_end m ->
  jpeg_is_header m H (file_end m) = true ->
  H <= F ->
  eoi_at m F ->
  H + 4 <= F.
Proof.
  intros Hwf HH Hhdr HF [E0 E1].
  destruct (jpeg_header_bytes m H Hwf HH Hhdr)
    as [_ [B0 [B1 [B2 B3]]]].
  destruct (Z_le_gt_dec (H + 4) F) as [?|Hlt]; [assumption|].
  exfalso.
  assert (Hc : F = H \/ F = H + 1 \/ F = H + 2 \/ F = H + 3) by lia.
  destruct Hc as [->|[->|[->| ->]]].
  - rewrite B1 in E1. discriminate.
  - rewrite B1 in E0. discriminate.
  - replace (H + 2 + 1) with (H + 3) in E1 by lia.
    destruct B3 as [B3|B3]; rewrite B3 in E1; discriminate.
  - destruct B3 as [B3|B3]; rewrite B3 in E0; discriminate.
Qed.

(** [X3] On a buffer of bytes, a JPEG found from a header at [H] is at
    least 6 and at most 40 MiB + 2 bytes long: the search for [FF D9]
    starts at the header itself, so the marker may sit in the two
    wildcarded length bytes of the header, but not before them. *)
Theorem jpeg_fragment_length_bounds m H e :
  well_formed m ->
  0 <= H <= file_end m ->
  jpeg_is_header m H (file_end m) = true ->
  jpeg_find_footer m H (file_end m) = Some e ->
  6 <= e - H <= 40 * 1024 * 1024 + 2.
Proof.
  intros Hwf HH Hhdr Hfoot.
  change (40 * 1024 * 1024) with max_length_bytes.
  apply jpeg_find_footer_some in Hfoot.
  destruct Hfoot as [H1 [H2 [_ [[Heoi _] _]]]].
  pose proof (eoi_after_header_bytes m H (e - 2) Hwf HH Hhdr H1 Heoi).
  lia.
Qed.

Lemma jpeg_fragment_length_bounds_witness :
  6 <= 6 - 0 <= 40 * 1024 * 1024 + 2.
Proof.
  refine (jpeg_fragment_length_bounds
            (mapping [0xFF; 0xD8; 0xFF; 0xE0; 0xFF; 0xD9; 0x4A; 0x46; 0x49;
                      0x46; 0; 1; 5; 5])
            0 6 _ _ _ _).
  - repeat constructor; lia.
  - vm_compute. split; discriminate.
  - vm_compute. reflexivity.
  - vm_compute. reflexivity.
Defined.


(** ** What the run scan returns and loads *)

(** [X4] From any position the run scan stops at the end of the run of
    printable bytes that starts there: it never steps back, never goes past
    the buffer end, every byte it steps over is in [[0x20, 0x7E]], and it
    stops before the buffer end only at a byte outside that range. *)
Theorem ascii_scan_stops_at_run_end m cur :
  cur <= fst (ascii_scan m cur (file_end m)) <= Z.max cur (file_end m)
  /\ (forall p, cur <= p < fst (ascii_scan m cur (file_end m)) ->
        0x20 <= byte_at m p <= 0x7E)
  /\ (fst (ascii_scan m cur (file_end m)) < file_end m ->
      ~ 0x20 <= byte_at m (fst (ascii_scan m cur (file_end m))) <= 0x7E).
Proof.
  destruct (ascii_scan_result m cur (file_end m)) as [Hr [Hrun [Hstop _]]].
  split; [exact Hr|]. split; [exact Hrun | exact Hstop].
Qed.

(** [X5] From a position of the buffer the run scan dereferences the
    offsets from the position to the end of the run it measures, and no
    other offset.  No load is further out than the buffer length, and the
    load at the buffer length, the one byte behind the buffer, is made
    exactly when the run reaches the buffer end. *)
Theorem ascii_scan_loads_to_run_end m cur :
  0 <= cur <= file_end m ->
  (forall p,
      In p (snd (ascii_scan m cur (file_end m)))
      <-> cur <= p <= fst (ascii_scan m cur (file_end m)))
  /\ Forall (fun p => 0 <= p <= file_end m)
       (snd (ascii_scan m cur (file_end m)))
  /\ (In (file_end m) (snd (ascii_scan m cur (file_end m)))
      <-> fst (ascii_scan m cur (file_end m)) = file_end m).
Proof.
  intros Hcur.
  destruct (ascii_scan_result m cur (file_end m)) as [Hr [_ [_ Hloads]]].
  rewrite Hloads. split; [|split].
  - intros p. rewrite offsets_in. lia.
  - apply Forall_forall. intros p Hp. apply offsets_in in Hp. lia.
  - rewrite offsets_in. lia.
Qed.

Lemma ascii_scan_loads_to_run_end_witness :
  In 4 (snd (ascii_scan (isolated [0x41; 0x42; 0; 0x43]) 3 4))
  <-> fst (ascii_scan (isolated [0x41; 0x42; 0; 0x43]) 3 4) = 4.
Proof.
  refine (proj2 (proj2 (ascii_scan_loads_to_run_end
                          (isolated [0x41; 0x42; 0; 0x43]) 3 _))).
  vm_compute. split; discriminate.
Defined.

(** [X6] Once the ASCII detector has run at a position, it does nothing at
    all at the positions before the end of the run it measured: the world
    is left as it is, so a run is scanned once however long it is. *)
Theorem ascii_rescue_suppresses_run m fopen_ok position w w' q :
  ptr_ltb position (g_ascii_ignore_before w) = false ->
  ascii_rescue m fopen_ok position (file_end m) w = Running w' ->
  q < fst (ascii_scan m position (file_end m)) ->
  ascii_rescue m fopen_ok q (file_end m) w' = Running w'.
Proof.
  intros Hrun Hres Hq.
  assert (Hb : g_ascii_ignore_before w'
               = Some (fst (ascii_scan m position (file_end m)))).
  { unfold ascii_rescue in Hres. rewrite Hrun in Hres. cbv zeta in Hres.
    destruct (forallb _ _) in Hres; [|discriminate].
    destruct (_ >=? _) in Hres.
    - destruct (write_fragment _ _ _ _ _ _) as [w1|w1|w1]; simpl in Hres;
        [|discriminate|discriminate].
      injection Hres as <-. reflexivity.
    - simpl in Hres. injection Hres as <-. reflexivity. }
  apply ascii_rescue_suppressed. rewrite Hb. simpl. apply Z.ltb_lt. exact Hq.
Qed.

Lemma ascii_rescue_suppresses_run_witness :
  ascii_rescue (mapping [0x41; 0x42; 0x43; 0]) (fun _ => true) 2 4
    (set_ascii_ignore_before 3 initial_world)
  = Running (set_ascii_ignore_before 3 initial_world).
Proof.
  refine (ascii_rescue_suppresses_run
            (mapping [0x41; 0x42; 0x43; 0]) (fun _ => true) 0
            initial_world (set_ascii_ignore_before 3 initial_world) 2 _ _ _).
  - reflexivity.
  - vm_compute. reflexivity.
  - vm_compute. reflexivity.
Defined.

(** * Further properties of whole scans *)

(** ** Invariants of the driver loop *)

Section ScanInvariant.

Variable m : Memory.
Variable fopen_ok : string -> bool.

(** The ASCII detector dies on a load in the world it was called in. *)
Lemma ascii_rescue_faulted cur endp w w' :
  ascii_rescue m fopen_ok cur endp w = Faulted w' -> w' = w.
Proof.
  unfold ascii_rescue. cbv zeta.
  destruct (ptr_ltb cur (g_ascii_ignore_before w)); [discriminate|].
  destruct (forallb _ _); [|intros [= <-]; reflexivity].
  destruct (_ >=? _); [|discriminate].
  destruct (write_fragment _ _ _ _ _ _) as [w1|w1|w1] eqn:E; simpl;
    [discriminate | discriminate |].
  destruct (write_fragment_not_faulted m fopen_ok _ _ _ _ _ E).
Qed.

(** [P cur w]: what holds at the head of the loop body with the cursor at
    [cur]; [Q cur w]: what holds between the two detectors; [C w]: what
    holds of the world a process died in, in the sink.  A process that
    dies on a load dies between the two detectors. *)
Variable P Q : Z -> World -> Prop.
Variable C : World -> Prop.

Hypothesis P_say : forall cur d w, P cur w -> P cur (say d w).

Hypothesis P_jpeg : forall cur w,
  0 <= cur < file_end m ->
  P cur w ->
  match jpeg_rescue m fopen_ok cur (file_end m) w with
  | Running w' => Q cur w'
  | Crashed w' => C w'
  | Faulted _ => True
  end.

Hypothesis Q_ascii : forall cur w,
  0 <= cur < file_end m ->
  Q cur w ->
  match ascii_rescue m fopen_ok cur (file_end m) w with
  | Running w' => P (cur + 1) w'
  | Crashed w' => C w'
  | Faulted _ => True
  end.

Lemma visit_offsets_invariant n cur st_size pc w :
  0 <= cur ->
  cur + Z.of_nat n = file_end m ->
  P cur w ->
  match visit_offsets m fopen_ok (file_end m) st_size (offsets cur n) pc w
  with
  | Running w' => P (file_end m) w'
  | Crashed w' => C w'
  | Faulted w' => exists at_cur, 0 <= at_cur < file_end m /\ Q at_cur w'
  end.
Proof.
  revert cur pc w; induction n as [|n IH]; intros cur pc w Hcur Hend HP.
  - simpl. replace (file_end m) with cur by lia. exact HP.
  - rewrite offsets_succ. simpl.
    assert (HP1 : P cur (snd (report_progress cur st_size pc w))).
    { unfold report_progress. cbv zeta.
      destruct (_ >? _); simpl; [apply P_say|]; exact HP. }
    destruct (report_progress cur st_size pc w) as [pc' w1]. simpl in HP1.
    pose proof (P_jpeg cur w1 ltac:(lia) HP1) as HQ.
    destruct (jpeg_rescue m fopen_ok cur (file_end m) w1) as [w2|w2|w2]
      eqn:Ej; simpl; [|exact HQ|].
    + pose proof (Q_ascii cur w2 ltac:(lia) HQ) as HP2.
      destruct (ascii_rescue m fopen_ok cur (file_end m) w2) as [w3|w3|w3]
        eqn:Ea; simpl; [|exact HP2|].
      * apply IH; [lia | lia | exact HP2].
      * apply ascii_rescue_faulted in Ea. subst w3.
        exists cur. split; [lia | exact HQ].
    + destruct (jpeg_rescue_not_faulted m fopen_ok _ _ _ _ Ej).
Qed.

(** The invariant carried from the first to the last iteration of [main]. *)
Lemma main_invariant :
  P 0 initial_world ->
  exists o,
    main m fopen_ok = Some o
    /\ match o with
       | Running w' => P (file_end m) w'
       | Crashed w' => C w'
       | Faulted w' => exists at_cur, 0 <= at_cur < file_end m /\ Q at_cur w'
       end.
Proof.
  intros HP. rewrite main_visits. eexists. split; [reflexivity|].
  pose proof (visit_offsets_invariant (List.length (file_bytes m)) 0
                (file_end m) 0
                (say (Opened (file_end m / (1024 * 1024))) initial_world)
                ltac:(lia) ltac:(unfold file_end; lia)
                (P_say 0 _ _ HP)) as Hinv.
  destruct (visit_offsets _ _ _ _ _ _ _) as [w'|w'|w']; simpl;
    [apply P_say| |]; exact Hinv.
Qed.

End ScanInvariant.

(** ** The JPEG fragments of a scan *)

Lemma offsets_snoc lo n : offsets lo (S n) = offsets lo n ++ [lo + Z.of_nat n].
Proof. unfold offsets. rewrite seq_S, map_app. reflexivity. Qed.

Lemma offsets_to_cursor cur :
  0 <= cur ->
  offsets 0 (Z.to_nat (cur + 1)) = offsets 0 (Z.to_nat cur) ++ [cur].
Proof.
  intros Hcur. replace (Z.to_nat (cur + 1)) with (S (Z.to_nat cur)) by lia.
  rewrite offsets_snoc. do 2 f_equal. lia.
Qed.

Lemma tagged_app ext l l' : tagged ext (l ++ l') = tagged ext l ++ tagged ext l'.
Proof. apply filter_app. Qed.

Section FragmentsOfDetectors.

Variable m : Memory.
Variable fopen_ok : string -> bool.

(** The JPEG detector calls the sink with [jpeg_fragment_at], and with
    nothing else. *)
Lemma jpeg_rescue_sunk cur w :
  sunk (world_of (jpeg_rescue m fopen_ok cur (file_end m) w))
  = sunk w ++ jpeg_fragment_at m cur.
Proof.
  unfold jpeg_rescue, jpeg_fragment_at.
  destruct (jpeg_is_header m cur (file_end m));
    [|simpl; rewrite app_nil_r; reflexivity].
  cbv zeta. destruct (jpeg_find_footer m cur (file_end m)).
  - rewrite write_fragment_sunk. reflexivity.
  - simpl. rewrite app_nil_r. reflexivity.
Qed.

Lemma tagged_jpeg_fragment_at cur :
  tagged "jpg" (jpeg_fragment_at m cur) = jpeg_fragment_at m cur
  /\ tagged "txt" (jpeg_fragment_at m cur) = [].
Proof.
  unfold jpeg_fragment_at.
  destruct (jpeg_is_header m cur (file_end m)); [|split; reflexivity].
  destruct (jpeg_find_footer m cur (file_end m)); split; reflexivity.
Qed.

(** The ASCII detector calls the sink at most once, with a fragment tagged
    "txt" that starts at the position and ends where the run scan
    stopped. *)
Lemma ascii_rescue_sunk cur w :
  sunk (world_of (ascii_rescue m fopen_ok cur (file_end m) w)) = sunk w
  \/ (ptr_ltb cur (g_ascii_ignore_before w) = false
      /\ 1024 <= fst (ascii_scan m cur (file_end m)) - cur
      /\ sunk (world_of (ascii_rescue m fopen_ok cur (file_end m) w))
         = sunk w ++ [{| frag_start := cur;
                         frag_end := fst (ascii_scan m cur (file_end m));
                         frag_ext := "txt" |}]).
Proof.
  unfold ascii_rescue. cbv zeta.
  destruct (ptr_ltb cur (g_ascii_ignore_before w)); [left; reflexivity|].
  destruct (ascii_scan_result m cur (file_end m)) as [Hr _].
  set (r := fst (ascii_scan m cur (file_end m))) in *.
  destruct (forallb _ _); [|left; reflexivity].
  destruct (to_uint64 (r - cur) >=? min_size_bytes) eqn:Hlong;
    [|left; reflexivity].
  right. split; [reflexivity|].
  split; [apply to_uint64_threshold; [lia | exact Hlong]|].
  pose proof (write_fragment_sunk m fopen_ok cur r "txt"
                (say (AsciiFound (to_uint64 (r - cur))) w)) as Hs.
  destruct (write_fragment _ _ _ _ _ _) as [w'|w'|w']; simpl in *; exact Hs.
Qed.

Lemma ascii_rescue_tagged_jpg cur w :
  tagged "jpg" (sunk (world_of (ascii_rescue m fopen_ok cur (file_end m) w)))
  = tagged "jpg" (sunk w).
Proof.
  destruct (ascii_rescue_sunk cur w) as [->|[_ [_ ->]]]; [reflexivity|].
  rewrite tagged_app. simpl. apply app_nil_r.
Qed.

End FragmentsOfDetectors.

(** The "jpg" fragments of a scan, offset by offset. *)
Lemma main_jpeg_fragments_list m fopen_ok :
  exists o,
    main m fopen_ok = Some o
    /\ match o with
       | Running w =>
           tagged "jpg" (sunk w)
           = flat_map (jpeg_fragment_at m)
               (offsets 0 (List.length (file_bytes m)))
       | Crashed w =>
           exists n,
             (n <= List.length (file_bytes m))%nat
             /\ tagged "jpg" (sunk w)
                = flat_map (jpeg_fragment_at m) (offsets 0 n)
       | Faulted w =>
           exists n,
             (n <= List.length (file_bytes m))%nat
             /\ tagged "jpg" (sunk w)
                = flat_map (jpeg_fragment_at m) (offsets 0 n)
       end.
Proof.
  pose (P := fun (cur : Z) (w : World) =>
    tagged "jpg" (sunk w)
    = flat_map (jpeg_fragment_at m) (offsets 0 (Z.to_nat cur))).
  pose (C := fun (w : World) =>
    exists n, (n <= List.length (file_bytes m))%nat
      /\ tagged "jpg" (sunk w) = flat_map (jpeg_fragment_at m) (offsets 0 n)).
  destruct (main_invariant m fopen_ok P (fun cur => P (cur + 1)) C)
    as [o [Hmain Hinv]].
  - intros cur d w HP. exact HP.
  - intros cur w Hcur HP. unfold P, C in *.
    pose proof (jpeg_rescue_sunk m fopen_ok cur w) as Hs.
    assert (Hnew : tagged "jpg" (sunk w ++ jpeg_fragment_at m cur)
                   = flat_map (jpeg_fragment_at m)
                       (offsets 0 (Z.to_nat (cur + 1)))).
    { rewrite tagged_app, HP, offsets_to_cursor, flat_map_app by lia.
      simpl. rewrite app_nil_r.
      rewrite (proj1 (tagged_jpeg_fragment_at m cur)). reflexivity. }
    destruct (jpeg_rescue m fopen_ok cur (file_end m) w) as [w'|w'|w'];
      simpl in Hs; [rewrite Hs | rewrite Hs | exact I].
    + exact Hnew.
    + exists (Z.to_nat (cur + 1)). split; [unfold file_end in Hcur; lia|].
      exact Hnew.
  - intros cur w Hcur HP. unfold P, C in *.
    pose proof (ascii_rescue_tagged_jpg m fopen_ok cur w) as Hs.
    destruct (ascii_rescue m fopen_ok cur (file_end m) w) as [w'|w'|w'];
      simpl in Hs; [rewrite Hs | rewrite Hs | exact I].
    + exact HP.
    + exists (Z.to_nat (cur + 1)). split; [unfold file_end in Hcur; lia|].
      exact HP.
  - reflexivity.
  - exists o. split; [exact Hmain|].
    destruct o as [w|w|w]; [|exact Hinv|].
    + unfold P in Hinv. rewrite Hinv. unfold file_end.
      rewrite Nat2Z.id. reflexivity.
    + destruct Hinv as [at_cur [Hat Hinv]].
      exists (Z.to_nat (at_cur + 1)).
      split; [unfold file_end in Hat; lia | exact Hinv].
Qed.

(** [X7] The "jpg" fragments of a scan are those of the headers of the
    buffer, taken in the order of their offsets: one fragment for each
    offset at which a header is recognized and the footer search succeeds,
    from that offset to the pointer the search returns.  Nothing the ASCII
    detector does, and no JPEG found earlier, changes them; a process that
    dies, in the sink or on a load, has produced those of the offsets it
    reached. *)
Theorem main_jpeg_fragments m fopen_ok :
  exists o,
    main m fopen_ok = Some o
    /\ match o with
       | Running w =>
           tagged "jpg" (sunk w)
           = flat_map (jpeg_fragment_at m)
               (offsets 0 (List.length (file_bytes m)))
       | Crashed w =>
           exists n,
             (n <= List.length (file_bytes m))%nat
             /\ tagged "jpg" (sunk w)
                = flat_map (jpeg_fragment_at m) (offsets 0 n)
       | Faulted w =>
           exists n,
             (n <= List.length (file_bytes m))%nat
             /\ tagged "jpg" (sunk w)
                = flat_map (jpeg_fragment_at m) (offsets 0 n)
       end.
Proof. apply main_jpeg_fragments_list. Qed.

(** ** The ASCII fragments of a scan *)

Lemma ForallOrdPairs_app {A} (R : A -> A -> Prop) l l' :
  ForallOrdPairs R l ->
  ForallOrdPairs R l' ->
  (forall x y, In x l -> In y l' -> R x y) ->
  ForallOrdPairs R (l ++ l').
Proof.
  intros Hl Hl' Hcross. induction Hl as [|a l Ha Hl IH]; simpl.
  - exact Hl'.
  - constructor.
    + apply Forall_app. split; [exact Ha|].
      apply Forall_forall. intros y Hy. apply Hcross; [left; reflexivity|exact Hy].
    + apply IH. intros x y Hx Hy. apply Hcross; [right; exact Hx | exact Hy].
Qed.

Section TextInvariant.

Variable m : Memory.

(** Two runs that start at the same offset and cannot be extended to the
    right end at the same offset. *)
Lemma run_end_unique s e r :
  s <= e <= file_end m ->
  s <= r <= file_end m ->
  (forall p, s <= p < e -> printable (byte_at m p)) ->
  (forall p, s <= p < r -> printable (byte_at m p)) ->
  (e < file_end m -> ~ printable (byte_at m e)) ->
  (r < file_end m -> ~ printable (byte_at m r)) ->
  e = r.
Proof.
  intros He Hr Hpe Hpr Hse Hsr.
  destruct (Z.lt_trichotomy e r) as [Hlt|[Heq|Hgt]]; [|exact Heq|].
  - exfalso. apply Hse; [lia|]. apply Hpr. lia.
  - exfalso. apply Hsr; [lia|]. apply Hpe. lia.
Qed.

Lemma txt_invariant_jpeg cur boundary frags l :
  Forall (fun f => frag_ext f = "jpg"%string) l ->
  txt_invariant m cur boundary frags ->
  txt_invariant m cur boundary (frags ++ l).
Proof.
  intros Hjpg [Hb [Hruns [Hbehind [Hord Hfound]]]].
  rewrite Forall_forall in Hjpg.
  assert (Hnot : forall f, In f l -> frag_ext f = "txt"%string -> False).
  { intros f Hf Htxt. rewrite (Hjpg f Hf) in Htxt. discriminate. }
  split; [exact Hb|]. split; [|split; [|split]].
  - intros f Hf Htxt. apply in_app_or in Hf as [Hf|Hf];
      [apply Hruns; assumption | destruct (Hnot f Hf Htxt)].
  - intros f Hf Htxt. apply in_app_or in Hf as [Hf|Hf];
      [apply Hbehind; assumption | destruct (Hnot f Hf Htxt)].
  - apply ForallOrdPairs_app; [exact Hord | |].
    + induction l as [|a l IH]; constructor.
      * apply Forall_forall. intros g Hg _ Htxt.
        destruct (Hnot g (or_intror Hg) Htxt).
      * apply IH; intros; [apply Hjpg | eapply Hnot]; try right; eassumption.
    + intros x y _ Hy _ Htxt. destruct (Hnot y Hy Htxt).
  - intros Hsize s e Hrun Hlong Hs. apply in_or_app. left.
    apply (Hfound Hsize); assumption.
Qed.

(** The detector is suppressed at [cur]: nothing changes. *)
Lemma txt_invariant_suppressed cur boundary frags :
  ptr_ltb cur boundary = true ->
  txt_invariant m cur boundary frags ->
  txt_invariant m (cur + 1) boundary frags.
Proof.
  intros Hlt [Hb [Hruns [Hbehind [Hord Hfound]]]].
  destruct boundary as [b|]; [|discriminate]. simpl in Hlt, Hb.
  apply Z.ltb_lt in Hlt. destruct Hb as [Hc [Hr [Hstop Hprint]]].
  split; [|split; [exact Hruns | split; [exact Hbehind | split; [exact Hord|]]]].
  - simpl. split; [lia|]. split; [lia|]. split; [exact Hstop|].
    intros p Hp. apply Hprint. lia.
  - intros Hsize s e Hrun Hlong Hs.
    destruct (Z.eq_dec s cur) as [->|Hne];
      [|apply (Hfound Hsize); [assumption | assumption | lia]].
    exfalso. destruct Hrun as [_ [_ [_ [Hleft _]]]].
    apply Hleft; [lia|]. apply Hprint. lia.
Qed.

(** The detector runs at [cur] and stops at [r]: what is known of the
    bytes around [cur]. *)
Lemma unsuppressed_left_edge cur boundary r :
  boundary_at m cur boundary ->
  ptr_ltb cur boundary = false ->
  cur < file_end m ->
  cur < r ->
  (forall p, cur <= p < r -> printable (byte_at m p)) ->
  (0 < cur -> ~ printable (byte_at m (cur - 1)))
  /\ (forall b, boundary = Some b -> b < cur).
Proof.
  intros Hb Hlt Hcur Hr Hprint.
  destruct boundary as [b|]; simpl in *.
  - apply Z.ltb_ge in Hlt. destruct Hb as [Hc [Hrange [Hstop _]]].
    assert (Hbc : b = cur - 1).
    { destruct (Z.eq_dec b cur) as [->|Hne]; [|lia].
      exfalso. apply Hstop; [lia|]. apply Hprint. lia. }
    subst b. split; [intros _; apply Hstop; lia|].
    intros b' [= <-]. lia.
  - subst cur. split; [lia | intros b' Hb'; discriminate].
Qed.

Lemma txt_invariant_short cur boundary frags r :
  0 <= cur < file_end m ->
  ptr_ltb cur boundary = false ->
  cur <= r <= file_end m ->
  (forall p, cur <= p < r -> printable (byte_at m p)) ->
  (r < file_end m -> ~ printable (byte_at m r)) ->
  (file_end m < 2 ^ 64 -> r - cur < 1024) ->
  txt_invariant m cur boundary frags ->
  txt_invariant m (cur + 1) (Some r) frags.
Proof.
  intros Hcur Hlt Hr Hprint Hstop Hshort [Hb [Hruns [Hbehind [Hord Hfound]]]].
  split; [|split; [exact Hruns | split; [|split; [exact Hord|]]]].
  - simpl. split; [lia|]. split; [lia|]. split; [exact Hstop|].
    intros p Hp. apply Hprint. lia.
  - intros f Hf Htxt. destruct (Hbehind f Hf Htxt) as [b [-> Hle]].
    simpl in Hlt. apply Z.ltb_ge in Hlt. exists r. split; [reflexivity | lia].
  - intros Hsize s e Hrun Hlong Hs.
    destruct (Z.eq_dec s cur) as [->|Hne];
      [|apply (Hfound Hsize); [assumption | assumption | lia]].
    exfalso. destruct Hrun as [[_ H1] [H2 [H3 [_ H5]]]].
    assert (e = r) by (apply (run_end_unique cur); assumption || lia).
    subst e. specialize (Hshort Hsize). lia.
Qed.

Lemma txt_invariant_long_fragments cur boundary frags r :
  0 <= cur < file_end m ->
  ptr_ltb cur boundary = false ->
  cur <= r <= file_end m ->
  (forall p, cur <= p < r -> printable (byte_at m p)) ->
  (r < file_end m -> ~ printable (byte_at m r)) ->
  1024 <= r - cur ->
  txt_invariant m cur boundary frags ->
  txt_runs m (frags ++ [{| frag_start := cur; frag_end := r;
                           frag_ext := "txt" |}])
  /\ ForallOrdPairs txt_apart
       (frags ++ [{| frag_start := cur; frag_end := r; frag_ext := "txt" |}]).
Proof.
  intros Hcur Hlt Hr Hprint Hstop Hlong [Hb [Hruns [Hbehind [Hord _]]]].
  destruct (unsuppressed_left_edge cur boundary r Hb Hlt
              ltac:(lia) ltac:(lia) Hprint) as [Hleft Hbelow].
  split.
  - intros f Hf Htxt. apply in_app_or in Hf as [Hf|[<-|[]]];
      [apply Hruns; assumption|]. simpl.
    split; [|exact Hlong].
    split; [lia|]. split; [lia|]. split; [exact Hprint|].
    split; [exact Hleft | exact Hstop].
  - apply ForallOrdPairs_app; [exact Hord | repeat constructor |].
    intros x y Hx [<-|[]] Htxt _. simpl.
    destruct (Hbehind x Hx Htxt) as [b [Hsome Hle]].
    specialize (Hbelow b Hsome). lia.
Qed.

Lemma txt_invariant_long cur boundary frags r :
  0 <= cur < file_end m ->
  ptr_ltb cur boundary = false ->
  cur <= r <= file_end m ->
  (forall p, cur <= p < r -> printable (byte_at m p)) ->
  (r < file_end m -> ~ printable (byte_at m r)) ->
  1024 <= r - cur ->
  txt_invariant m cur boundary frags ->
  txt_invariant m (cur + 1) (Some r)
    (frags ++ [{| frag_start := cur; frag_end := r; frag_ext := "txt" |}]).
Proof.
  intros Hcur Hlt Hr Hprint Hstop Hlong Hinv.
  destruct (txt_invariant_long_fragments cur boundary frags r
              Hcur Hlt Hr Hprint Hstop Hlong Hinv) as [Hruns' Hord'].
  destruct Hinv as [Hb [Hruns [Hbehind [Hord Hfound]]]].
  split; [|split; [exact Hruns' | split; [|split; [exact Hord'|]]]].
  - simpl. split; [lia|]. split; [lia|]. split; [exact Hstop|].
    intros p Hp. apply Hprint. lia.
  - intros f Hf Htxt. exists r. split; [reflexivity|].
    apply in_app_or in Hf as [Hf|[<-|[]]]; [|simpl; lia].
    destruct (Hbehind f Hf Htxt) as [b [-> Hle]].
    simpl in Hlt. apply Z.ltb_ge in Hlt. lia.
  - intros Hsize s e Hrun Hlong' Hs. apply in_or_app.
    destruct (Z.eq_dec s cur) as [->|Hne];
      [|left; apply (Hfound Hsize); [assumption | assumption | lia]].
    right. left. destruct Hrun as [[_ H1] [H2 [H3 [_ H5]]]].
    assert (e = r) by (apply (run_end_unique cur); assumption || lia).
    subst e. reflexivity.
Qed.

End TextInvariant.

Section TextOfScan.

Variable m : Memory.
Variable fopen_ok : string -> bool.

(** What a call of the ASCII detector does to the boundary and to the
    fragments handed to the sink. *)
Lemma ascii_rescue_effect cur w :
  match ascii_rescue m fopen_ok cur (file_end m) w with
  | Running w' =>
      (ptr_ltb cur (g_ascii_ignore_before w) = true
       /\ g_ascii_ignore_before w' = g_ascii_ignore_before w
       /\ sunk w' = sunk w)
      \/ (ptr_ltb cur (g_ascii_ignore_before w) = false
          /\ g_ascii_ignore_before w'
             = Some (fst (ascii_scan m cur (file_end m)))
          /\ (((to_uint64 (fst (ascii_scan m cur (file_end m)) - cur)
                  >=? min_size_bytes) = false
               /\ sunk w' = sunk w)
              \/ ((to_uint64 (fst (ascii_scan m cur (file_end m)) - cur)
                     >=? min_size_bytes) = true
                  /\ sunk w'
                     = sunk w ++
                       [{| frag_start := cur;
                           frag_end := fst (ascii_scan m cur (file_end m));
                           frag_ext := "txt" |}])))
  | Crashed w' =>
      ptr_ltb cur (g_ascii_ignore_before w) = false
      /\ (to_uint64 (fst (ascii_scan m cur (file_end m)) - cur)
            >=? min_size_bytes) = true
      /\ sunk w'
         = sunk w ++ [{| frag_start := cur;
                         frag_end := fst (ascii_scan m cur (file_end m));
                         frag_ext := "txt" |}]
  | Faulted _ => True
  end.
Proof.
  unfold ascii_rescue. cbv zeta.
  destruct (ptr_ltb cur (g_ascii_ignore_before w)) eqn:Hlt.
  - left. repeat split.
  - set (r := fst (ascii_scan m cur (file_end m))).
    destruct (forallb _ _); [|exact I].
    destruct (to_uint64 (r - cur) >=? min_size_bytes) eqn:Hlong.
    + pose proof (write_fragment_sunk m fopen_ok cur r "txt"
                    (say (AsciiFound (to_uint64 (r - cur))) w)) as Hs.
      destruct (write_fragment _ _ _ _ _ _) as [w'|w'|w']; simpl in *.
      * right. split; [reflexivity|]. split; [reflexivity|].
        right. split; [reflexivity | exact Hs].
      * split; [reflexivity|]. split; [reflexivity | exact Hs].
      * exact I.
    + simpl. right. split; [reflexivity|]. split; [reflexivity|].
      left. split; reflexivity.
Qed.

Lemma jpeg_fragment_at_jpg cur :
  Forall (fun f => frag_ext f = "jpg"%string) (jpeg_fragment_at m cur).
Proof.
  unfold jpeg_fragment_at.
  destruct (jpeg_is_header m cur (file_end m)); [|constructor].
  destruct (jpeg_find_footer m cur (file_end m)); repeat constructor.
Qed.

Lemma below_threshold d :
  0 <= d < 2 ^ 64 ->
  (to_uint64 d >=? min_size_bytes) = false -> d < 1024.
Proof.
  unfold to_uint64, min_size_bytes. intros Hd Hlt.
  rewrite Z.mod_small in Hlt by exact Hd.
  rewrite Z.geb_leb in Hlt. apply Z.leb_gt in Hlt. exact Hlt.
Qed.

(** The invariant of the ASCII detector along a scan. *)
Lemma main_txt_invariant :
  exists o,
    main m fopen_ok = Some o
    /\ match o with
       | Running w =>
           txt_invariant m (file_end m) (g_ascii_ignore_before w) (sunk w)
       | Crashed w =>
           txt_runs m (sunk w) /\ ForallOrdPairs txt_apart (sunk w)
       | Faulted w =>
           txt_runs m (sunk w) /\ ForallOrdPairs txt_apart (sunk w)
       end.
Proof.
  destruct (main_invariant m fopen_ok
              (fun cur w =>
                 txt_invariant m cur (g_ascii_ignore_before w) (sunk w))
              (fun cur w =>
                 txt_invariant m cur (g_ascii_ignore_before w) (sunk w))
              (fun w => txt_runs m (sunk w)
                        /\ ForallOrdPairs txt_apart (sunk w)))
    as [o [Hmain Hinv]]; cycle 4.
  { exists o. split; [exact Hmain|].
    destruct o as [w|w|w]; [exact Hinv | exact Hinv |].
    destruct Hinv as [at_cur [_ [_ [Hruns [_ [Hord _]]]]]].
    split; assumption. }
  - intros cur d w Hinv. exact Hinv.
  - intros cur w Hcur Hinv.
    pose proof (jpeg_rescue_sunk m fopen_ok cur w) as Hs.
    pose proof (jpeg_rescue_boundary m fopen_ok cur (file_end m) w) as Hb.
    pose proof (txt_invariant_jpeg m cur _ _ _
                  (jpeg_fragment_at_jpg cur) Hinv) as Hinv'.
    destruct (jpeg_rescue m fopen_ok cur (file_end m) w) as [w'|w'|w'];
      simpl in Hs, Hb; [rewrite Hs, Hb; exact Hinv' | rewrite Hs | exact I].
    destruct Hinv' as [_ [Hruns [_ [Hord _]]]]. split; assumption.
  - intros cur w Hcur Hinv.
    pose proof (ascii_rescue_effect cur w) as Heff.
    destruct (ascii_scan_result m cur (file_end m))
      as [Hr [Hprint [Hstop _]]].
    set (r := fst (ascii_scan m cur (file_end m))) in *.
    rewrite Z.max_r in Hr by lia.
    destruct (ascii_rescue m fopen_ok cur (file_end m) w) as [w'|w'|w'];
      [| |exact I].
    + destruct Heff as [[Hlt [Hb Hs]]|[Hlt [Hb [[Hshort Hs]|[Hlong Hs]]]]];
        rewrite Hb, Hs.
      * apply txt_invariant_suppressed; assumption.
      * apply (txt_invariant_short m cur (g_ascii_ignore_before w));
          try assumption.
        intros Hsize. apply below_threshold; [lia | exact Hshort].
      * apply (txt_invariant_long m cur (g_ascii_ignore_before w));
          try assumption.
        apply to_uint64_threshold; [lia | exact Hlong].
    + destruct Heff as [Hlt [Hlong Hs]]. rewrite Hs.
      apply (txt_invariant_long_fragments m cur (g_ascii_ignore_before w));
        try assumption.
      apply to_uint64_threshold; [lia | exact Hlong].
  - split; [reflexivity|]. split; [intros f []|]. split; [intros f []|].
    split; [apply FOP_nil | intros _ s e [[Hs0 _] _] _ Hs; lia].
Qed.

End TextOfScan.

(** [X8] Every "txt" fragment of a scan is a run of at least 1024
    printable bytes that cannot be extended: it starts at the head of the
    buffer or after a byte outside [[0x20, 0x7E]] and ends at the end of
    the buffer or before such a byte.  The "txt" fragments come in the order
    of their offsets and are apart: each ends before the next one starts. *)
Theorem main_txt_fragments_are_maximal_runs m fopen_ok :
  exists o,
    main m fopen_ok = Some o
    /\ (forall f, In f (sunk (world_of o)) -> frag_ext f = "txt"%string ->
          maximal_run m (frag_start f) (frag_end f)
          /\ 1024 <= frag_end f - frag_start f)
    /\ ForallOrdPairs txt_apart (sunk (world_of o)).
Proof.
  destruct (main_txt_invariant m fopen_ok) as [o [Hmain Hinv]].
  exists o. split; [exact Hmain|].
  destruct o as [w|w|w]; simpl.
  - destruct Hinv as [_ [Hruns [_ [Hord _]]]]. split; assumption.
  - exact Hinv.
  - exact Hinv.
Qed.

(** [X9] A scan that runs to completion misses no text: every run of at
    least 1024 printable bytes that cannot be extended has been handed to
    the sink, from its first byte to its last, tagged "txt". *)
Theorem main_finds_every_long_run m fopen_ok w s e :
  file_end m < 2 ^ 64 ->
  main m fopen_ok = Some (Running w) ->
  maximal_run m s e ->
  1024 <= e - s ->
  In {| frag_start := s; frag_end := e; frag_ext := "txt" |} (sunk w).
Proof.
  intros Hsize Hmain Hrun Hlong.
  destruct (main_txt_invariant m fopen_ok) as [o [Hmain' Hinv]].
  rewrite Hmain in Hmain'. injection Hmain' as <-.
  destruct Hinv as [_ [_ [_ [_ Hfound]]]].
  apply (Hfound Hsize); try assumption.
  destruct Hrun as [_ [He _]]. lia.
Qed.

Lemma main_finds_every_long_run_witness :
  In {| frag_start := 1; frag_end := 1025; frag_ext := "txt" |}
     (sunk (match main (mapping (0 :: repeat 0x41 1024 ++ [0]))
                       (fun _ => true)
            with
            | Some (Running w) => w
            | _ => initial_world
            end)).
Proof.
  apply (main_finds_every_long_run
           (mapping (0 :: repeat 0x41 1024 ++ [0])) (fun _ => true)
           (match main (mapping (0 :: repeat 0x41 1024 ++ [0]))
                       (fun _ => true)
            with
            | Some (Running w) => w
            | _ => initial_world
            end) 1 1025).
  - vm_compute. reflexivity.
  - vm_compute. reflexivity.
  - split; [lia|]. split; [vm_compute; discriminate|].
    split; [|split].
    + apply (printable_run_check _ 1 1024). vm_compute. reflexivity.
    + intros _ [Hge _]. vm_compute in Hge. apply Hge. reflexivity.
    + intros _ [Hge _]. vm_compute in Hge. apply Hge. reflexivity.
  - lia.
Defined.

(** ** The files and the [gzip] lines of a scan *)

Lemma to_uint64_succ n : to_uint64 (to_uint64 n + 1) = to_uint64 (n + 1).
Proof. unfold to_uint64. apply Zplus_mod_idemp_l. Qed.

Lemma artifacts_snoc m next_id frags f :
  artifacts m next_id (frags ++ [f])
  = artifacts m next_id frags
    ++ [(fragment_filename (frag_ext f)
           (to_uint64 (next_id + Z.of_nat (List.length frags))),
         slice (file_bytes m) (frag_start f) (frag_end f))].
Proof.
  revert next_id; induction frags as [|g frags IH]; intros next_id.
  - simpl. rewrite Z.add_0_r. reflexivity.
  - cbn [artifacts app List.length]. rewrite IH. cbn [app].
    replace (next_id + Z.of_nat (S (List.length frags)))
      with (next_id + 1 + Z.of_nat (List.length frags)) by lia.
    reflexivity.
Qed.

(** What [fwrite] is given is the range of the buffer. *)
Lemma bytes_between_slice m s e :
  0 <= s <= e ->
  e <= file_end m ->
  bytes_between m s e = slice (file_bytes m) s e.
Proof.
  intros Hs He. unfold bytes_between, slice.
  assert (Hlen : List.length
                   (firstn (Z.to_nat (e - s))
                      (skipn (Z.to_nat s) (file_bytes m)))
                 = Z.to_nat (e - s)).
  { rewrite length_firstn, length_skipn. unfold file_end in He. lia. }
  apply (nth_ext _ _ 0 0).
  - rewrite length_map, length_seq, Hlen. reflexivity.
  - intros k Hk. rewrite length_map, length_seq in Hk.
    rewrite nth_firstn, nth_skipn.
    replace (k <? Z.to_nat (e - s))%nat with true
      by (symmetry; apply Nat.ltb_lt; exact Hk).
    rewrite (nth_indep _ 0 (value (deref m (s + Z.of_nat 0))))
      by (rewrite length_map, length_seq; exact Hk).
    rewrite (map_nth (fun k => value (deref m (s + Z.of_nat k)))).
    rewrite seq_nth by exact Hk. cbn [Nat.add].
    change (value (deref m (s + Z.of_nat k)))
      with (byte_at m (s + Z.of_nat k)).
    rewrite byte_at_in_range by lia. f_equal. lia.
Qed.

Section Bookkeeping.

Variable m : Memory.
Variable fopen_ok : string -> bool.

Lemma write_fragment_books start endp ext w :
  0 <= start <= endp ->
  endp <= file_end m ->
  books_kept m w ->
  match write_fragment m fopen_ok start endp ext w with
  | Running w' => books_kept m w'
  | Crashed w' => books_at_death m w'
  | Faulted _ => True
  end.
Proof.
  intros Hs He [Hid [Hdisk Hcout]]. unfold write_fragment. cbv zeta.
  assert (Hid' : to_uint64 (g_fragment_id w + 1)
                 = to_uint64 (1 + Z.of_nat (List.length (sunk w)))).
  { rewrite Hid, to_uint64_succ. f_equal. lia. }
  destruct (fopen_ok _).
  - unfold books_kept. cbn [g_fragment_id disk cout sunk].
    split; [|split].
    + rewrite Hid', length_app. cbn [List.length]. f_equal. lia.
    + rewrite artifacts_snoc, Hdisk, Hid'. cbn [frag_ext frag_start frag_end].
      rewrite bytes_between_slice by assumption. reflexivity.
    + rewrite map_app, Hcout. reflexivity.
  - exists (sunk w), {| frag_start := start; frag_end := endp;
                        frag_ext := ext |}.
    cbn [g_fragment_id disk cout sunk].
    split; [reflexivity|]. split; [|split; assumption].
    rewrite Hid', length_app. cbn [List.length]. f_equal. lia.
Qed.

Lemma jpeg_rescue_books cur w :
  0 <= cur ->
  books_kept m w ->
  match jpeg_rescue m fopen_ok cur (file_end m) w with
  | Running w' => books_kept m w'
  | Crashed w' => books_at_death m w'
  | Faulted _ => True
  end.
Proof.
  intros Hcur Hb. unfold jpeg_rescue.
  destruct (jpeg_is_header m cur (file_end m)); [|exact Hb].
  cbv zeta. destruct (jpeg_find_footer m cur (file_end m)) as [e|] eqn:Hfoot;
    [|exact Hb].
  apply jpeg_find_footer_range in Hfoot.
  apply write_fragment_books; [lia | lia | exact Hb].
Qed.

Lemma ascii_rescue_books cur w :
  0 <= cur <= file_end m ->
  books_kept m w ->
  match ascii_rescue m fopen_ok cur (file_end m) w with
  | Running w' => books_kept m w'
  | Crashed w' => books_at_death m w'
  | Faulted _ => True
  end.
Proof.
  intros Hcur Hb. unfold ascii_rescue. cbv zeta.
  destruct (ptr_ltb cur (g_ascii_ignore_before w)); [exact Hb|].
  destruct (ascii_scan_result m cur (file_end m)) as [Hr _].
  set (r := fst (ascii_scan m cur (file_end m))) in *.
  rewrite Z.max_r in Hr by lia.
  destruct (forallb _ _); [|exact I].
  destruct (to_uint64 (r - cur) >=? min_size_bytes); [|exact Hb].
  pose proof (write_fragment_books cur r "txt"
                (say (AsciiFound (to_uint64 (r - cur))) w)
                ltac:(lia) ltac:(lia) Hb) as Hw.
  destruct (write_fragment _ _ _ _ _ _) as [w'|w'|w']; simpl; exact Hw.
Qed.

End Bookkeeping.

(** [X10] After a scan the fragment identifier is the number of calls of
    the sink (modulo 2^64); the files created are, in order,
    [<tag>-fragment-<k>.<tag>] for the k-th call, each holding exactly the
    bytes of the buffer between the start and the end of its fragment; and
    the standard output holds one [gzip <file>] line for each file, in the
    same order.  A process that dies in the sink has done so for all
    fragments but the last, and one that dies on a load for all of them. *)
Theorem main_keeps_books m fopen_ok :
  exists o,
    main m fopen_ok = Some o
    /\ match o with
       | Running w =>
           g_fragment_id w = to_uint64 (Z.of_nat (List.length (sunk w)))
           /\ disk w = artifacts m 1 (sunk w)
           /\ cout w
              = map (fun file => ("gzip " ++ fst file)%string) (disk w)
       | Crashed w =>
           exists frags f,
             sunk w = frags ++ [f]
             /\ g_fragment_id w
                = to_uint64 (Z.of_nat (List.length (sunk w)))
             /\ disk w = artifacts m 1 frags
             /\ cout w
                = map (fun file => ("gzip " ++ fst file)%string) (disk w)
       | Faulted w =>
           g_fragment_id w = to_uint64 (Z.of_nat (List.length (sunk w)))
           /\ disk w = artifacts m 1 (sunk w)
           /\ cout w
              = map (fun file => ("gzip " ++ fst file)%string) (disk w)
       end.
Proof.
  destruct (main_invariant m fopen_ok
              (fun _ w => books_kept m w) (fun _ w => books_kept m w)
              (books_at_death m))
    as [o [Hmain Hinv]]; cycle 4.
  { exists o. split; [exact Hmain|].
    destruct o as [w|w|w]; [exact Hinv | exact Hinv |].
    destruct Hinv as [at_cur [_ Hb]]. exact Hb. }
  - intros cur d w Hb. exact Hb.
  - intros cur w Hcur Hb. apply jpeg_rescue_books; [lia | exact Hb].
  - intros cur w Hcur Hb. apply ascii_rescue_books; [lia | exact Hb].
  - repeat split.
Qed.

(** ** Memory outside the mapped file *)

Section SurroundingMemory.

Variable bytes : list Z.
Variable beyond1 beyond2 : Z -> Z.
Variable readable1 readable2 : Z -> bool.

Let m1 : Memory :=
  {| file_bytes := bytes; beyond := beyond1; readable := readable1 |}.
Let m2 : Memory :=
  {| file_bytes := bytes; beyond := beyond2; readable := readable2 |}.

Lemma deref_within p :
  0 <= p < file_end m1 -> deref m1 p = deref m2 p.
Proof.
  intros Hp. unfold deref. change (file_end m2) with (file_end m1).
  replace ((0 <=? p) && (p <? file_end m1)) with true; [reflexivity|].
  symmetry. apply andb_true_iff. split; [apply Z.leb_le | apply Z.ltb_lt]; lia.
Qed.

Lemma match_loop_within fuel mem ps pattern mask i :
  0 <= mem ->
  0 <= i ->
  mem + i <= file_end m1 ->
  match_loop m1 fuel mem (file_end m1) ps pattern mask i
  = match_loop m2 fuel mem (file_end m1) ps pattern mask i.
Proof.
  revert i; induction fuel as [|fuel IH]; intros i Hmem Hi Hle;
    [reflexivity|].
  simpl. destruct (i <? ps); [|reflexivity].
  destruct (mem + i =? file_end m1) eqn:Hend; [reflexivity|].
  apply Z.eqb_neq in Hend.
  rewrite (deref_within (mem + i)) by lia.
  destruct (_ && _ && _); [|reflexivity].
  apply IH; lia.
Qed.

Lemma check_if_bytes_match_within mem ps pattern mask :
  0 <= mem <= file_end m1 ->
  check_if_bytes_match m1 mem (file_end m1) ps pattern mask
  = check_if_bytes_match m2 mem (file_end m1) ps pattern mask.
Proof.
  intros Hmem. unfold check_if_bytes_match.
  rewrite match_loop_within by lia. reflexivity.
Qed.

Lemma jpeg_is_header_within mem :
  0 <= mem <= file_end m1 ->
  jpeg_is_header m1 mem (file_end m1) = jpeg_is_header m2 mem (file_end m1).
Proof.
  intros Hmem. unfold jpeg_is_header.
  rewrite !check_if_bytes_match_within by exact Hmem. reflexivity.
Qed.

Lemma footer_loop_within fuel mem max_mem :
  0 <= mem ->
  max_mem <= file_end m1 - 2 ->
  footer_loop m1 fuel mem max_mem (file_end m1)
  = footer_loop m2 fuel mem max_mem (file_end m1).
Proof.
  revert mem; induction fuel as [|fuel IH]; intros mem Hmem Hmax;
    [reflexivity|].
  simpl. destruct (mem <=? max_mem) eqn:Hle; [|reflexivity].
  apply Z.leb_le in Hle.
  rewrite (deref_within mem), (deref_within (mem + 1)) by lia.
  rewrite (IH (mem + 1)) by lia.
  destruct (_ && _); [|reflexivity].
  destruct (mem + 3 >=? file_end m1) eqn:Hnear; [reflexivity|].
  rewrite Z.geb_leb in Hnear. apply Z.leb_gt in Hnear.
  rewrite (deref_within (mem + 2)), (deref_within (mem + 3)) by lia.
  reflexivity.
Qed.

Lemma jpeg_find_footer_within mem :
  0 <= mem ->
  jpeg_find_footer m1 mem (file_end m1) = jpeg_find_footer m2 mem (file_end m1).
Proof.
  intros Hmem. unfold jpeg_find_footer. cbv zeta.
  apply footer_loop_within; [exact Hmem|].
  rewrite footer_bound_spec. lia.
Qed.

(** The run scan takes the same steps and does the same loads: the byte it
    loads at the buffer end is never looked at twice. *)
Lemma ascii_loop_within fuel cur loads :
  0 <= cur ->
  ascii_loop m1 fuel cur (file_end m1) loads
  = ascii_loop m2 fuel cur (file_end m1) loads.
Proof.
  revert cur loads; induction fuel as [|fuel IH]; intros cur loads Hcur;
    [reflexivity|].
  simpl. destruct (cur <? file_end m1) eqn:Hlt.
  - apply Z.ltb_lt in Hlt. rewrite (deref_within cur) by lia.
    rewrite (IH (cur + 1)) by lia. reflexivity.
  - rewrite !andb_false_r. reflexivity.
Qed.

Lemma bytes_between_within s e :
  0 <= s ->
  e <= file_end m1 ->
  bytes_between m1 s e = bytes_between m2 s e.
Proof.
  intros Hs He. unfold bytes_between. apply map_ext_in.
  intros k Hk. apply in_seq in Hk.
  rewrite (deref_within (s + Z.of_nat k)) by lia. reflexivity.
Qed.

(** The two memories agree on whether the byte behind the buffer can be
    loaded. *)
Hypothesis same_end : readable1 (file_end m1) = readable2 (file_end m1).

Lemma loads_succeed_within cur :
  0 <= cur <= file_end m1 ->
  forallb (load_succeeds m1) (snd (ascii_scan m1 cur (file_end m1)))
  = forallb (load_succeeds m2) (snd (ascii_scan m2 cur (file_end m1))).
Proof.
  intros Hcur.
  rewrite (loads_succeed_scan m1 cur Hcur).
  change (file_end m1) with (file_end m2) at 4.
  rewrite (loads_succeed_scan m2 cur Hcur).
  unfold ascii_scan. change (file_end m2) with (file_end m1).
  rewrite <- ascii_loop_within by lia.
  change (readable m1 (file_end m1)) with (readable1 (file_end m1)).
  change (readable m2 (file_end m1)) with (readable2 (file_end m1)).
  rewrite same_end. reflexivity.
Qed.

Variable fopen_ok : string -> bool.

Lemma write_fragment_within s e ext w :
  0 <= s ->
  e <= file_end m1 ->
  write_fragment m1 fopen_ok s e ext w = write_fragment m2 fopen_ok s e ext w.
Proof.
  intros Hs He. unfold write_fragment.
  rewrite (bytes_between_within s e Hs He). reflexivity.
Qed.

Lemma jpeg_rescue_within_file cur w :
  0 <= cur <= file_end m1 ->
  jpeg_rescue m1 fopen_ok cur (file_end m1) w
  = jpeg_rescue m2 fopen_ok cur (file_end m1) w.
Proof.
  intros Hcur. unfold jpeg_rescue.
  rewrite <- jpeg_is_header_within, <- jpeg_find_footer_within by lia.
  destruct (jpeg_is_header m1 cur (file_end m1)); [|reflexivity].
  cbv zeta.
  destruct (jpeg_find_footer m1 cur (file_end m1)) as [e|] eqn:Hfoot;
    [|reflexivity].
  apply jpeg_find_footer_range in Hfoot.
  apply write_fragment_within; lia.
Qed.

Lemma ascii_rescue_within_file cur w :
  0 <= cur <= file_end m1 ->
  ascii_rescue m1 fopen_ok cur (file_end m1) w
  = ascii_rescue m2 fopen_ok cur (file_end m1) w.
Proof.
  intros Hcur. unfold ascii_rescue. cbv zeta.
  rewrite <- loads_succeed_within by exact Hcur.
  unfold ascii_scan.
  rewrite <- ascii_loop_within by lia.
  destruct (ptr_ltb cur (g_ascii_ignore_before w)); [reflexivity|].
  destruct (forallb _ _); [|reflexivity].
  destruct (ascii_loop_range m1 (S (Z.to_nat (file_end m1 - cur))) cur
              (file_end m1) []) as [Hge Hle].
  destruct (_ >=? _); [|reflexivity].
  rewrite write_fragment_within by lia. reflexivity.
Qed.

Lemma visit_offsets_within_file n cur st_size pc w :
  0 <= cur ->
  cur + Z.of_nat n <= file_end m1 ->
  visit_offsets m1 fopen_ok (file_end m1) st_size (offsets cur n) pc w
  = visit_offsets m2 fopen_ok (file_end m1) st_size (offsets cur n) pc w.
Proof.
  revert cur pc w; induction n as [|n IH]; intros cur pc w Hcur Hend;
    [reflexivity|].
  rewrite offsets_succ. simpl.
  destruct (report_progress cur st_size pc w) as [pc' w1].
  rewrite jpeg_rescue_within_file by lia.
  destruct (jpeg_rescue m2 fopen_ok cur (file_end m1) w1) as [w2|w2|w2];
    [|reflexivity|reflexivity].
  simpl. rewrite ascii_rescue_within_file by lia.
  destruct (ascii_rescue m2 fopen_ok cur (file_end m1) w2) as [w3|w3|w3];
    [|reflexivity|reflexivity].
  simpl. apply IH; lia.
Qed.

Lemma main_within_file : main m1 fopen_ok = main m2 fopen_ok.
Proof.
  rewrite !main_visits. change (file_end m2) with (file_end m1).
  change (file_bytes m2) with (file_bytes m1).
  rewrite visit_offsets_within_file; [reflexivity | lia |].
  unfold file_end. lia.
Qed.

End SurroundingMemory.

(** [X11] A scan depends on the memory outside the mapped file in one
    way only, through whether the byte at the buffer length can be loaded.
    Two memories that hold the same file and agree on that give the same
    scan: the same fragments, files with their contents, output streams
    and final state, or the same death, whatever the bytes outside the
    mapping are and whatever else can be loaded there. *)
Theorem main_ignores_surrounding_memory bytes beyond1 beyond2
    readable1 readable2 fopen_ok :
  readable1 (Z.of_nat (List.length bytes))
  = readable2 (Z.of_nat (List.length bytes)) ->
  main {| file_bytes := bytes; beyond := beyond1; readable := readable1 |}
       fopen_ok
  = main {| file_bytes := bytes; beyond := beyond2; readable := readable2 |}
         fopen_ok.
Proof. intros Hsame. apply main_within_file. exact Hsame. Qed.

Lemma main_ignores_surrounding_memory_witness :
  main {| file_bytes := [0x41; 0x42]; beyond := fun _ => 0x41;
          readable := fun p => p =? 2 |}
       (fun _ => true)
  = main {| file_bytes := [0x41; 0x42]; beyond := fun _ => 0;
            readable := fun _ => true |}
         (fun _ => true).
Proof.
  refine (main_ignores_surrounding_memory
            [0x41; 0x42] (fun _ => 0x41) (fun _ => 0)
            (fun p => p =? 2) (fun _ => true) (fun _ => true) _).
  reflexivity.
Defined.

(** ** The progress reports *)

Lemma progress_values_app ds ds' :
  progress_values (ds ++ ds') = progress_values ds ++ progress_values ds'.
Proof. apply flat_map_app. Qed.

Lemma ForallOrdPairs_snoc {A} (R : A -> A -> Prop) l x :
  ForallOrdPairs R l ->
  Forall (fun y => R y x) l ->
  ForallOrdPairs R (l ++ [x]).
Proof.
  intros Hl Hx. apply ForallOrdPairs_app; [exact Hl | repeat constructor |].
  rewrite Forall_forall in Hx. intros y z Hy [<-|[]]. apply Hx. exact Hy.
Qed.

Section ProgressFacts.

Variable m : Memory.
Variable fopen_ok : string -> bool.

Lemma write_fragment_progress start endp ext w :
  progress_values (cerr (world_of (write_fragment m fopen_ok start endp ext w)))
  = progress_values (cerr w).
Proof.
  unfold write_fragment. cbv zeta. destruct (fopen_ok _); simpl;
    [|reflexivity].
  rewrite progress_values_app. simpl. apply app_nil_r.
Qed.

Lemma jpeg_rescue_progress cur endp w :
  progress_values (cerr (world_of (jpeg_rescue m fopen_ok cur endp w)))
  = progress_values (cerr w).
Proof.
  unfold jpeg_rescue. destruct (jpeg_is_header m cur endp); [|reflexivity].
  cbv zeta. destruct (jpeg_find_footer m cur endp).
  - rewrite write_fragment_progress. simpl.
    rewrite !progress_values_app. simpl. rewrite !app_nil_r. reflexivity.
  - simpl. rewrite !progress_values_app. simpl. rewrite !app_nil_r.
    reflexivity.
Qed.

Lemma ascii_rescue_progress cur endp w :
  progress_values (cerr (world_of (ascii_rescue m fopen_ok cur endp w)))
  = progress_values (cerr w).
Proof.
  unfold ascii_rescue. cbv zeta.
  destruct (ptr_ltb cur (g_ascii_ignore_before w)); [reflexivity|].
  destruct (forallb _ _); [|reflexivity].
  destruct (_ >=? _); [|reflexivity].
  pose proof (write_fragment_progress cur (fst (ascii_scan m cur endp)) "txt"
                (say (AsciiFound
                        (to_uint64 (fst (ascii_scan m cur endp) - cur))) w))
    as Hw.
  assert (Hsay : progress_values
                   (cerr (say (AsciiFound
                                 (to_uint64
                                    (fst (ascii_scan m cur endp) - cur))) w))
                 = progress_values (cerr w)).
  { simpl. rewrite progress_values_app. simpl. apply app_nil_r. }
  rewrite Hsay in Hw.
  destruct (write_fragment _ _ _ _ _ _) as [w'|w'|w']; exact Hw.
Qed.

Lemma report_progress_kept bound cur st_size pc w :
  to_uint64 (cur * 1000) / to_uint64 st_size <= bound ->
  progress_kept bound pc w ->
  progress_kept bound (fst (report_progress cur st_size pc w))
    (snd (report_progress cur st_size pc w)).
Proof.
  intros Hnew [Hpc [Hord Hall]]. unfold report_progress, progress_kept.
  cbv zeta.
  destruct (_ >? _) eqn:Hgt; simpl; [|split; [|split]; assumption].
  rewrite Z.gtb_ltb in Hgt. apply Z.ltb_lt in Hgt.
  rewrite Forall_forall in Hall.
  split; [lia|]. rewrite progress_values_app. simpl. split.
  - apply ForallOrdPairs_snoc; [exact Hord|].
    apply Forall_forall. intros v Hv. specialize (Hall v Hv). lia.
  - apply Forall_app. split.
    + apply Forall_forall. intros v Hv. specialize (Hall v Hv). lia.
    + repeat constructor; lia.
Qed.

Lemma visit_offsets_progress bound endp st_size positions pc w :
  Forall (fun cur => to_uint64 (cur * 1000) / to_uint64 st_size <= bound)
    positions ->
  progress_kept bound pc w ->
  exists pc',
    progress_kept bound pc'
      (world_of (visit_offsets m fopen_ok endp st_size positions pc w)).
Proof.
  revert pc w; induction positions as [|cur positions IH];
    intros pc w Hnew Hkept; simpl.
  - exists pc. exact Hkept.
  - inversion Hnew as [|? ? Hcur Hrest]; subst.
    pose proof (report_progress_kept bound cur st_size pc w Hcur Hkept)
      as Hk1.
    destruct (report_progress cur st_size pc w) as [pc' w1]. simpl in Hk1.
    pose proof (jpeg_rescue_progress cur endp w1) as Hj.
    destruct (jpeg_rescue m fopen_ok cur endp w1) as [w2|w2|w2]; simpl in *.
    + pose proof (ascii_rescue_progress cur endp w2) as Ha.
      assert (Hk2 : progress_kept bound pc' w2)
        by (unfold progress_kept in *; rewrite Hj; exact Hk1).
      destruct (ascii_rescue m fopen_ok cur endp w2) as [w3|w3|w3];
        simpl in *.
      * apply IH; [exact Hrest|].
        unfold progress_kept in *. rewrite Ha. exact Hk2.
      * exists pc'. unfold progress_kept in *. rewrite Ha. exact Hk2.
      * exists pc'. unfold progress_kept in *. rewrite Ha. exact Hk2.
    + exists pc'. unfold progress_kept in *. rewrite Hj. exact Hk1.
    + exists pc'. unfold progress_kept in *. rewrite Hj. exact Hk1.
Qed.

Lemma main_progress bound :
  Forall (fun cur => to_uint64 (cur * 1000) / to_uint64 (file_end m) <= bound)
    (offsets 0 (List.length (file_bytes m))) ->
  0 <= bound ->
  exists o pc,
    main m fopen_ok = Some o /\ progress_kept bound pc (world_of o).
Proof.
  intros Hnew Hbound. rewrite main_visits.
  destruct (visit_offsets_progress bound (file_end m) (file_end m)
              (offsets 0 (List.length (file_bytes m))) 0
              (say (Opened (file_end m / (1024 * 1024))) initial_world)
              Hnew) as [pc Hkept].
  { split; [lia|]. split; constructor. }
  eexists. exists pc. split; [reflexivity|].
  destruct (visit_offsets _ _ _ _ _ _ _) as [w|w|w]; simpl in *;
    [|exact Hkept|exact Hkept].
  unfold progress_kept in *. simpl. rewrite progress_values_app. simpl.
  rewrite app_nil_r. exact Hkept.
Qed.

Lemma new_percent_below_1000 cur :
  file_end m * 1000 < 2 ^ 64 ->
  0 <= cur < file_end m ->
  to_uint64 (cur * 1000) / to_uint64 (file_end m) <= 999.
Proof.
  intros Hsize Hcur. unfold to_uint64.
  rewrite !Z.mod_small by lia.
  assert (cur * 1000 / file_end m < 1000)
    by (apply Z.div_lt_upper_bound; lia).
  lia.
Qed.

Lemma new_percent_uint64 cur st_size :
  to_uint64 (cur * 1000) / to_uint64 st_size <= 2 ^ 64.
Proof.
  unfold to_uint64.
  pose proof (Z.mod_pos_bound (cur * 1000) (2 ^ 64) ltac:(lia)) as Hn.
  pose proof (Z.mod_pos_bound st_size (2 ^ 64) ltac:(lia)) as Hd.
  destruct (Z.eq_dec (st_size mod 2 ^ 64) 0) as [->|Hne].
  - rewrite Z.div_0_r. lia.
  - assert (cur * 1000 mod 2 ^ 64 / (st_size mod 2 ^ 64)
            <= cur * 1000 mod 2 ^ 64)
      by (apply Z.div_le_upper_bound; nia).
    lia.
Qed.

End ProgressFacts.

(** A strictly increasing list of integers of an interval is no longer
    than the interval. *)
Lemma increasing_length lo hi l :
  ForallOrdPairs Z.lt l ->
  Forall (fun v => lo <= v <= hi) l ->
  lo <= hi + 1 ->
  Z.of_nat (List.length l) <= hi - lo + 1.
Proof.
  intros Hord. revert lo. induction Hord as [|a l Ha Hord IH];
    intros lo Hall Hlo; simpl List.length; [lia|].
  inversion Hall as [|? ? Hra Hrl]; subst.
  assert (Hl : Forall (fun v => a + 1 <= v <= hi) l).
  { rewrite Forall_forall in *. intros v Hv.
    specialize (Ha v Hv). specialize (Hrl v Hv). lia. }
  specialize (IH (a + 1) Hl ltac:(lia)). lia.
Qed.

(** [X12] The percentages a scan reports increase strictly from one report
    to the next and none is below 0.1%: a percentage is printed only when it
    has changed, and 0.0% never is.  For a buffer of fewer than 2^64 / 1000
    bytes none is above 99.9%, so that a scan prints at most 999 progress
    lines however large the buffer. *)
Theorem main_progress_reports_increase m fopen_ok :
  exists o,
    main m fopen_ok = Some o
    /\ ForallOrdPairs Z.lt (progress_values (cerr (world_of o)))
    /\ Forall (fun tenths => 1 <= tenths) (progress_values (cerr (world_of o)))
    /\ (file_end m * 1000 < 2 ^ 64 ->
        Forall (fun tenths => tenths <= 999)
          (progress_values (cerr (world_of o)))
        /\ (List.length (progress_values (cerr (world_of o))) <= 999)%nat).
Proof.
  destruct (main_progress m fopen_ok (2 ^ 64)) as [o [pc [Hmain Hkept]]].
  { apply Forall_forall. intros cur _. apply new_percent_uint64. }
  { lia. }
  exists o. split; [exact Hmain|].
  destruct Hkept as [_ [Hord Hall]]. split; [exact Hord|]. split.
  - apply (Forall_impl _ (P := fun v => 1 <= v <= pc)); [|exact Hall].
    intros v Hv. lia.
  - intros Hsize.
    destruct (main_progress m fopen_ok 999) as [o' [pc' [Hmain' Hkept']]].
    { apply Forall_forall. intros cur Hcur. apply offsets_in in Hcur.
      apply new_percent_below_1000; [exact Hsize | unfold file_end; lia]. }
    { lia. }
    rewrite Hmain in Hmain'. injection Hmain' as <-.
    destruct Hkept' as [Hpc' [_ Hall']].
    assert (Hrange : Forall (fun v => 1 <= v <= 999)
                       (progress_values (cerr (world_of o)))).
    { apply (Forall_impl _ (P := fun v => 1 <= v <= pc')); [|exact Hall'].
      intros v Hv. lia. }
    split.
    + apply (Forall_impl _ (P := fun v => 1 <= v <= 999)); [|exact Hrange].
      intros v Hv. lia.
    + pose proof (increasing_length 1 999 _ Hord Hrange ltac:(lia)). lia.
Qed.

(** [X13] At a position within the buffer the pattern matcher, the header
    check and the footer search return the same result whatever lies in
    memory outside the buffer and whether or not it can be loaded: they
    load no byte that is not in the file.  The ASCII detector does the same
    in two memories that agree on whether the byte at the buffer length can
    be loaded. *)
Theorem detectors_ignore_surrounding_memory bytes beyond1 beyond2
    readable1 readable2 position pattern_size pattern mask :
  0 <= position <= Z.of_nat (List.length bytes) ->
  check_if_bytes_match
    {| file_bytes := bytes; beyond := beyond1; readable := readable1 |}
    position (Z.of_nat (List.length bytes)) pattern_size pattern mask
  = check_if_bytes_match
      {| file_bytes := bytes; beyond := beyond2; readable := readable2 |}
      position (Z.of_nat (List.length bytes)) pattern_size pattern mask
  /\ jpeg_is_header
       {| file_bytes := bytes; beyond := beyond1; readable := readable1 |}
       position (Z.of_nat (List.length bytes))
     = jpeg_is_header
         {| file_bytes := bytes; beyond := beyond2; readable := readable2 |}
         position (Z.of_nat (List.length bytes))
  /\ jpeg_find_footer
       {| file_bytes := bytes; beyond := beyond1; readable := readable1 |}
       position (Z.of_nat (List.length bytes))
     = jpeg_find_footer
         {| file_bytes := bytes; beyond := beyond2; readable := readable2 |}
         position (Z.of_nat (List.length bytes))
  /\ (readable1 (Z.of_nat (List.length bytes))
      = readable2 (Z.of_nat (List.length bytes)) ->
      forall fopen_ok w,
        ascii_rescue
          {| file_bytes := bytes; beyond := beyond1; readable := readable1 |}
          fopen_ok position (Z.of_nat (List.length bytes)) w
        = ascii_rescue
            {| file_bytes := bytes; beyond := beyond2;
               readable := readable2 |}
            fopen_ok position (Z.of_nat (List.length bytes)) w).
Proof.
  intros Hpos.
  split; [apply check_if_bytes_match_within; exact Hpos|].
  split; [apply jpeg_is_header_within; exact Hpos|].
  split; [apply jpeg_find_footer_within; lia|].
  intros Hsame fopen_ok w.
  apply ascii_rescue_within_file; [exact Hsame | exact Hpos].
Qed.

Lemma detectors_ignore_surrounding_memory_witness :
  jpeg_find_footer
    {| file_bytes := [0xFF; 0xD9; 0xFF]; beyond := fun _ => 0xE1;
       readable := fun _ => true |} 0 3
  = jpeg_find_footer
      {| file_bytes := [0xFF; 0xD9; 0xFF]; beyond := fun _ => 0;
         readable := fun _ => false |} 0 3.
Proof.
  refine (proj1 (proj2 (proj2 (detectors_ignore_surrounding_memory
            [0xFF; 0xD9; 0xFF] (fun _ => 0xE1) (fun _ => 0)
            (fun _ => true) (fun _ => false) 0 0 [] [] _)))).
  simpl. lia.
Defined.

(** ** How many fragments a scan can produce *)

Section FragmentCount.

Variable m : Memory.
Variable fopen_ok : string -> bool.

Lemma jpeg_fragment_at_length cur :
  (List.length (jpeg_fragment_at m cur) <= 1)%nat.
Proof.
  unfold jpeg_fragment_at.
  destruct (jpeg_is_header m cur (file_end m)); [|simpl; lia].
  destruct (jpeg_find_footer m cur (file_end m)); simpl; lia.
Qed.

(** Each iteration hands at most one fragment of each kind to the sink, and
    the identifier counts them. *)
Lemma main_counts_fragments :
  exists o,
    main m fopen_ok = Some o
    /\ g_fragment_id (world_of o)
       = to_uint64 (Z.of_nat (List.length (sunk (world_of o))))
    /\ Z.of_nat (List.length (sunk (world_of o))) <= 2 * file_end m.
Proof.
  pose (count := fun (k cur : Z) (w : World) =>
    g_fragment_id w = to_uint64 (Z.of_nat (List.length (sunk w)))
    /\ Z.of_nat (List.length (sunk w)) <= 2 * cur + k).
  destruct (main_invariant m fopen_ok
              (fun cur w => books_kept m w /\ count 0 cur w)
              (fun cur w => books_kept m w /\ count 1 cur w)
              (fun w => count 0 (file_end m) w))
    as [o [Hmain Hinv]].
  - intros cur d w Hw. exact Hw.
  - intros cur w Hcur [Hb [_ Hn]].
    pose proof (jpeg_rescue_books m fopen_ok cur w ltac:(lia) Hb) as Hb'.
    pose proof (jpeg_rescue_sunk m fopen_ok cur w) as Hs.
    pose proof (jpeg_fragment_at_length cur) as Hone.
    destruct (jpeg_rescue m fopen_ok cur (file_end m) w) as [w'|w'|w'];
      [| |exact I]; simpl in Hs; unfold count; rewrite Hs, length_app.
    + split; [exact Hb'|]. split; [|lia].
      destruct Hb' as [Hid _]. rewrite Hid, Hs, length_app. reflexivity.
    + destruct Hb' as [frags [f [_ [Hid _]]]].
      split; [|lia]. rewrite Hid, Hs, length_app. reflexivity.
  - intros cur w Hcur [Hb [_ Hn]].
    pose proof (ascii_rescue_books m fopen_ok cur w ltac:(lia) Hb) as Hb'.
    assert (Hlen : (List.length
                      (sunk (world_of
                               (ascii_rescue m fopen_ok cur (file_end m) w)))
                    <= S (List.length (sunk w)))%nat).
    { destruct (ascii_rescue_sunk m fopen_ok cur w) as [->|[_ [_ ->]]];
        [lia|]. rewrite length_app. simpl. lia. }
    destruct (ascii_rescue m fopen_ok cur (file_end m) w) as [w'|w'|w'];
      [| |exact I]; simpl in Hlen; unfold count.
    + split; [exact Hb'|]. split; [|lia]. destruct Hb' as [Hid _]. exact Hid.
    + destruct Hb' as [frags [f [_ [Hid _]]]]. split; [exact Hid | lia].
  - split; [repeat split|]. unfold count. simpl. split; [reflexivity | lia].
  - exists o. split; [exact Hmain|]. cbv beta delta [count] in Hinv.
    destruct o as [w|w|w]; cbn [world_of].
    + destruct Hinv as [_ [Hid Hn]]. split; [exact Hid | lia].
    + destruct Hinv as [Hid Hn]. split; [exact Hid | lia].
    + destruct Hinv as [at_cur [Hat [_ [Hid Hn]]]]. split; [exact Hid | lia].
Qed.

End FragmentCount.

(** [X14] A scan hands at most two fragments per byte of the buffer to the
    sink.  For a buffer of fewer than 2^63 bytes the 64-bit fragment
    identifier therefore never wraps around: at the end it is the number
    of fragments handed to the sink. *)
Theorem main_identifier_never_wraps m fopen_ok o :
  file_end m < 2 ^ 63 ->
  main m fopen_ok = Some o ->
  g_fragment_id (world_of o) = Z.of_nat (List.length (sunk (world_of o)))
  /\ Z.of_nat (List.length (sunk (world_of o))) <= 2 * file_end m.
Proof.
  intros Hsize Hmain.
  destruct (main_counts_fragments m fopen_ok) as [o' [Hmain' [Hid Hn]]].
  rewrite Hmain in Hmain'. injection Hmain' as <-.
  split; [|exact Hn]. rewrite Hid. unfold to_uint64.
  apply Z.mod_small.
  change (2 ^ 64) with (2 * 2 ^ 63). lia.
Qed.

Lemma main_identifier_never_wraps_witness :
  g_fragment_id
    (world_of (Running
       {| g_fragment_id := 1; g_ascii_ignore_before := Some 13;
          cout := ["gzip jpg-fragment-1.jpg"%string];
          cerr := [Opened 0; JpegHeaderFound 0; JpegFooterFound;
                   Wrote "jpg-fragment-1.jpg" 14; Progress 71; Progress 142;
                   Progress 214; Progress 285; Progress 357; Progress 428;
                   Progress 500; Progress 571; Progress 642; Progress 714;
                   Progress 785; Progress 857; Progress 928; Complete];
          disk := [("jpg-fragment-1.jpg"%string,
                    [0xFF; 0xD8; 0xFF; 0xE0; 0; 16; 0x4A; 0x46; 0x49; 0x46;
                     0; 1; 0xFF; 0xD9])];
          sunk := [{| frag_start := 0; frag_end := 14;
                      frag_ext := "jpg" |}] |}))
  = 1.
Proof.
  refine (proj1 (main_identifier_never_wraps
            (mapping [0xFF; 0xD8; 0xFF; 0xE0; 0; 16; 0x4A; 0x46; 0x49; 0x46;
                      0; 1; 0xFF; 0xD9])
            (fun _ => true) _ _ _)).
  - vm_compute. reflexivity.
  - vm_compute. reflexivity.
Defined.

(** ** What a recovered JPEG looks like *)

(** [X15] On a buffer of bytes, every "jpg" fragment of a scan lies within
    the buffer, starts with the bytes [FF D8 FF] of a recognized header,
    ends with the bytes [FF D9], and is between 6 bytes and 40 MiB + 2
    bytes long. *)
Theorem main_jpeg_fragments_delimited m fopen_ok o f :
  well_formed m ->
  main m fopen_ok = Some o ->
  In f (sunk (world_of o)) ->
  frag_ext f = "jpg"%string ->
  0 <= frag_start f /\ frag_end f <= file_end m
  /\ jpeg_is_header m (frag_start f) (file_end m) = true
  /\ byte_at m (frag_start f) = 0xFF
  /\ byte_at m (frag_start f + 1) = 0xD8
  /\ byte_at m (frag_start f + 2) = 0xFF
  /\ byte_at m (frag_end f - 2) = 0xFF
  /\ byte_at m (frag_end f - 1) = 0xD9
  /\ 6 <= frag_end f - frag_start f <= 40 * 1024 * 1024 + 2.
Proof.
  intros Hwf Hmain Hin Hjpg.
  destruct (main_jpeg_fragments_list m fopen_ok) as [o' [Hmain' Hlist]].
  rewrite Hmain in Hmain'. injection Hmain' as <-.
  assert (Hat : exists H n,
            (n <= List.length (file_bytes m))%nat
            /\ In H (offsets 0 n) /\ In f (jpeg_fragment_at m H)).
  { assert (Htag : In f (tagged "jpg" (sunk (world_of o)))).
    { unfold tagged. apply filter_In. split; [exact Hin|].
      rewrite Hjpg. reflexivity. }
    destruct o as [w|w|w]; simpl in Htag.
    - rewrite Hlist in Htag. apply in_flat_map in Htag as [H [HH Hf]].
      exists H, (List.length (file_bytes m)). split; [lia|]. split; assumption.
    - destruct Hlist as [n [Hn Hlist]]. rewrite Hlist in Htag.
      apply in_flat_map in Htag as [H [HH Hf]].
      exists H, n. split; [exact Hn|]. split; assumption.
    - destruct Hlist as [n [Hn Hlist]]. rewrite Hlist in Htag.
      apply in_flat_map in Htag as [H [HH Hf]].
      exists H, n. split; [exact Hn|]. split; assumption. }
  destruct Hat as [H [n [Hn [HH Hf]]]].
  apply offsets_in in HH.
  assert (Hrange : 0 <= H <= file_end m) by (unfold file_end; lia).
  unfold jpeg_fragment_at in Hf.
  destruct (jpeg_is_header m H (file_end m)) eqn:Hhdr; [|destruct Hf].
  destruct (jpeg_find_footer m H (file_end m)) as [e|] eqn:Hfoot;
    [|destruct Hf].
  destruct Hf as [<-|[]]. cbn [frag_start frag_end].
  destruct (jpeg_header_bytes m H Hwf Hrange Hhdr) as [_ [B0 [B1 [B2 _]]]].
  destruct (jpeg_find_footer_some m H e Hfoot)
    as [H1 [H2 [H3 [[[E0 E1] _] _]]]].
  pose proof (eoi_after_header_bytes m H (e - 2) Hwf Hrange Hhdr H1
                (conj E0 E1)) as Hfar.
  replace (e - 2 + 1) with (e - 1) in E1 by lia.
  change (40 * 1024 * 1024) with max_length_bytes.
  repeat (split; [first [assumption | lia]|]). lia.
Qed.

Lemma main_jpeg_fragments_delimited_witness :
  byte_at
    (mapping [0x20; 0xFF; 0xD8; 0xFF; 0xE0; 0; 16; 0x4A; 0x46; 0x49; 0x46;
              0; 1; 0x33; 0xFF; 0xD9; 0x20])
    (16 - 1) = 0xD9.
Proof.
  refine (proj1 (proj2 (proj2 (proj2 (proj2 (proj2 (proj2 (proj2
            (main_jpeg_fragments_delimited
               (mapping [0x20; 0xFF; 0xD8; 0xFF; 0xE0; 0; 16; 0x4A; 0x46;
                         0x49; 0x46; 0; 1; 0x33; 0xFF; 0xD9; 0x20])
               (fun _ => true)
               (match main
                        (mapping [0x20; 0xFF; 0xD8; 0xFF; 0xE0; 0; 16; 0x4A;
                                  0x46; 0x49; 0x46; 0; 1; 0x33; 0xFF; 0xD9;
                                  0x20])
                        (fun _ => true)
                with
                | Some o => o
                | None => Crashed initial_world
                end)
               {| frag_start := 1; frag_end := 16; frag_ext := "jpg" |}
               _ _ _ _))))))))).
  - repeat constructor; lia.
  - vm_compute. reflexivity.
  - vm_compute. left. reflexivity.
  - reflexivity.
Defined.

Lemma main_progress_reports_increase_witness :
  exists o,
    main (mapping [0x41; 0x42; 0; 0x43]) (fun _ => true) = Some o
    /\ Forall (fun tenths => tenths <= 999)
         (progress_values (cerr (world_of o))).
Proof.
  destruct (main_progress_reports_increase
              (mapping [0x41; 0x42; 0; 0x43]) (fun _ => true))
    as [o [Hmain [_ [_ Hbound]]]].
  exists o. split; [exact Hmain|].
  apply Hbound. vm_compute. reflexivity.
Defined.
